(** * The Unity bridge client of mcp-unity: Server/src/unity/mcpUnity.ts

    A shallow embedding of the [McpUnity] class: the port resolution run by
    its constructor ([determinePort] and the per-platform probes) and the
    WebSocket client proper ([connect], [disconnect], [handleMessage],
    [sendRequest], [stop], [reconnect] and the two timer callbacks).

    Conventions.
    - A JavaScript [number] is a binary64 float ([PrimFloat.float]).
    - A JavaScript string is a [string]; its characters are read as ASCII.
    - [this.pendingRequests], a [Map<string, PendingRequest>], is a
      [gmap string PendingRequest].
    - The class runs on one event loop: every method body, event handler
      and timer callback runs to completion before the next one starts.
      Each of them is a function on the client state [McpUnity]; what the
      runtime and the peer decide (which event comes next, whether a write
      throws, what [uuidv4()] returns) is an argument.
    - [this.logger] is a write-only sink: its calls neither read nor change
      the client state and are left out. *)

From Stdlib Require Import ZArith Floats Bool Ascii String.
From stdpp Require Import base option list strings gmap.

Local Open Scope string_scope.

(** ** JavaScript values and built-ins used by the class *)

Module Js.

(** 𝔽(z): the Number nearest to the integer [z], ties to even. *)
Definition Z2float (z : Z) : float :=
  SF2Prim (binary_normalize prec emax z 0 false).

(** StrWhiteSpaceChar, restricted to its ASCII members. *)
Definition isWhiteSpace (c : ascii) : bool :=
  let n := nat_of_ascii c in
  (Nat.leb 9 n && Nat.leb n 13) || Nat.eqb n 32.

Fixpoint trimStart (s : string) : string :=
  match s with
  | String c s' => if isWhiteSpace c then trimStart s' else s
  | EmptyString => EmptyString
  end.

Fixpoint trimEnd (s : string) : string :=
  match s with
  | EmptyString => EmptyString
  | String c s' =>
      match trimEnd s' with
      | EmptyString => if isWhiteSpace c then EmptyString else String c EmptyString
      | t => String c t
      end
  end.

(** [String.prototype.trim]. *)
Definition trim (s : string) : string := trimEnd (trimStart s).

Definition digit (c : ascii) : option Z :=
  let n := Z.of_nat (nat_of_ascii c) in
  if (48 <=? n)%Z && (n <=? 57)%Z then Some (n - 48)%Z else None.

(** Value of the longest prefix of decimal digits; [acc] is the value read
    so far, [None] while no digit has been read. *)
Fixpoint digits (s : string) (acc : option Z) : option Z :=
  match s with
  | String c s' =>
      match digit c with
      | Some d => digits s' (Some (10 * default 0%Z acc + d)%Z)
      | None => acc
      end
  | EmptyString => acc
  end.

(** [parseInt(s, 10)]: leading white space and one sign are skipped, the
    longest digit prefix is read, and [NaN] is returned when it is empty. *)
Definition parseInt (s : string) : float :=
  let t := trimStart s in
  let '(negative, t) :=
    match t with
    | String "-" r => (true, r)
    | String "+" r => (false, r)
    | _ => (false, t)
    end in
  match digits t None with
  | None => nan
  | Some n => if negative then (- Z2float n)%float else Z2float n
  end.

(** ToBoolean on a string: only the empty string is falsy. *)
Definition truthy_string (s : string) : bool := negb (String.eqb s "").

(** ToBoolean on [string | undefined]. *)
Definition truthy_opt (o : option string) : bool :=
  match o with Some s => truthy_string s | None => false end.

(** Completion of a call that may throw. *)
Inductive Completion (A : Type) : Type :=
| Normal (a : A)
| Thrown (message : string).
Arguments Normal {A} a.
Arguments Thrown {A} message.

Definition bind {A B} (c : Completion A) (k : A -> Completion B) : Completion B :=
  match c with
  | Normal a => k a
  | Thrown m => Thrown m
  end.

(** [try { body } catch (error) { handler }]. *)
Definition try_catch {A} (body : Completion A) (handler : string -> Completion A)
  : Completion A :=
  match body with
  | Normal a => Normal a
  | Thrown m => handler m
  end.

End Js.

Import Js.

Notation "'let!' x ':=' c 'in' k" := (bind c (fun x => k))
  (at level 10, x name, c at level 100, k at level 200).

(** ** Port resolution *)

Module Port.

(** What [execSync] does with a command: the child's standard output, or
    an exception (non-zero exit status, spawn failure). *)
Inductive ExecResult : Type :=
| Stdout (out : string)
| ExecError (message : string).

(** The part of the host process that port resolution reads. *)
Record Process : Type := {
  env_UNITY_PORT : option string;         (* process.env.UNITY_PORT *)
  platform : string;                      (* process.platform *)
  execSync : string -> ExecResult;        (* child_process.execSync *)
  HKCU_Environment : gmap string string;  (* values of HKCU\Environment *)
}.

Definition exec (p : Process) (command : string) : Completion string :=
  match execSync p command with
  | Stdout out => Normal out
  | ExecError m => Thrown m
  end.

Definition DEFAULT_PORT : float := 8090%float.

Definition launchctl_command : string := "launchctl getenv UNITY_PORT".

Definition shell_profile_command : string :=
  "source ~/.zshrc 2>/dev/null && echo $UNITY_PORT || " ++
  "source ~/.bash_profile 2>/dev/null && echo $UNITY_PORT".

Definition printenv_command : string := "printenv UNITY_PORT".

Definition getUnityPortFromMacOS (p : Process) : Completion string :=
  try_catch
    (let! out := exec p launchctl_command in
     let launchdPort := trim out in
     if truthy_string launchdPort then Normal launchdPort
     else
       let! out' := exec p shell_profile_command in
       Normal (trim out'))
    (fun _ => Normal "").

(** The callback given to [regKey.get]: on success it assigns the
    enclosing function's local [result]. *)
Definition registry_callback (item : option string) (result : string) : string :=
  match item with
  | Some value => value
  | None => result
  end.

(** winreg's [get] spawns reg.exe and calls back from the child's close
    event, in a later turn of the event loop; the call itself returns at
    once. The function therefore returns [result] as initialised; the
    second component is the callback still queued at that point. *)
Definition getUnityPortFromWindowsRegistry (p : Process)
  : string * (string -> string) :=
  let result := "" in
  let queued := registry_callback (HKCU_Environment p !! "UNITY_PORT") in
  (result, queued).

Definition getUnityPortFromUnixRegistry (p : Process) : Completion string :=
  let! out := exec p printenv_command in Normal (trim out).

Definition getPlatformSpecificPort (p : Process) : Completion string :=
  if String.eqb (platform p) "win32" then
    Normal (fst (getUnityPortFromWindowsRegistry p))
  else if String.eqb (platform p) "darwin" then getUnityPortFromMacOS p
  else getUnityPortFromUnixRegistry p.

(** The [try] block of [determinePort]: [Some port] when it returns from
    the function, [None] when control falls out of the block. *)
Definition determinePort_try (p : Process) : Completion (option float) :=
  try_catch
    (let! registryPort := getPlatformSpecificPort p in
     if truthy_string registryPort then Normal (Some (parseInt registryPort))
     else Normal None)
    (fun _ => Normal None).

Definition determinePort (p : Process) : Completion float :=
  match env_UNITY_PORT p with
  | Some envPort =>
      if truthy_string envPort then Normal (parseInt envPort)
      else
        let! r := determinePort_try p in
        Normal (default DEFAULT_PORT r)
  | None =>
      let! r := determinePort_try p in
      Normal (default DEFAULT_PORT r)
  end.

(** What the platform step yields: a non-empty string, or nothing (an
    empty answer or an exception). *)
Definition platform_value (p : Process) : option string :=
  match getPlatformSpecificPort p with
  | Normal v => if truthy_string v then Some v else None
  | Thrown _ => None
  end.

(** The resolution order as the specification words it: the override when
    present and parseable as an integer, otherwise the platform value when
    there is one, otherwise the default. *)
Definition resolve_as_specified (override platform_value : option string) : float :=
  match override with
  | Some s =>
      if negb (is_nan (parseInt s)) then parseInt s
      else match platform_value with
           | Some v => parseInt v
           | None => DEFAULT_PORT
           end
  | None =>
      match platform_value with
      | Some v => parseInt v
      | None => DEFAULT_PORT
      end
  end.

(** The port the specified order gives in process [p]. *)
Definition specified_port (p : Process) : float :=
  resolve_as_specified (env_UNITY_PORT p) (platform_value p).

(** Sample processes. *)

Definition no_child (_ : string) : ExecResult := ExecError "Command failed".

Definition linux_unset : Process :=
  {| env_UNITY_PORT := None; platform := "linux";
     execSync := no_child; HKCU_Environment := ∅ |}.

Definition linux_override (s : string) : Process :=
  {| env_UNITY_PORT := Some s; platform := "linux";
     execSync := fun _ => Stdout "7777"; HKCU_Environment := ∅ |}.

Definition linux_printenv (out : string) : Process :=
  {| env_UNITY_PORT := None; platform := "linux";
     execSync := fun _ => Stdout out; HKCU_Environment := ∅ |}.

Definition windows_registry (value : string) : Process :=
  {| env_UNITY_PORT := None; platform := "win32";
     execSync := no_child;
     HKCU_Environment := {[ "UNITY_PORT" := value ]} |}.

(** *** Further sample processes *)

(** [s] followed by a line feed, as a command prints it. *)
Definition line (s : string) : string := s ++ String "010" "".

(** A macOS process whose launchd store answers [launchd] and whose shell
    profiles answer [profile]. *)
Definition macos (launchd profile : ExecResult) : Process :=
  {| env_UNITY_PORT := None; platform := "darwin";
     execSync := fun command =>
       if String.eqb command launchctl_command then launchd else profile;
     HKCU_Environment := ∅ |}.

(** What [printenv UNITY_PORT] does in a child that inherits the
    environment of the process: it prints the value and a line feed, or
    fails when the variable is not set. *)
Definition printenv_inherits (p : Process) : Prop :=
  execSync p printenv_command =
    match env_UNITY_PORT p with
    | Some v => Stdout (line v)
    | None => ExecError "Command failed: printenv UNITY_PORT"
    end.

Definition freebsd_inheriting (v : option string) : Process :=
  {| env_UNITY_PORT := v; platform := "freebsd";
     execSync := fun _ =>
       match v with
       | Some s => Stdout (line s)
       | None => ExecError "Command failed: printenv UNITY_PORT"
       end;
     HKCU_Environment := ∅ |}.

End Port.

(** ** The WebSocket client *)

Module Client.

(** *** Values carried by frames ([any]) *)

#[warnings="-register-all"]
Inductive JsValue : Type :=
| JUndefined
| JNull
| JBool (b : bool)
| JNumber (n : float)
| JString (s : string)
| JArray (items : list JsValue)
| JObject (fields : list (string * JsValue)).

(** ToBoolean. *)
Definition truthy (v : JsValue) : bool :=
  match v with
  | JUndefined | JNull => false
  | JBool b => b
  | JNumber n => negb (is_zero n || is_nan n)
  | JString s => truthy_string s
  | JArray _ | JObject _ => true
  end.

(** [a || b]. *)
Definition or_else (a b : JsValue) : JsValue := if truthy a then a else b.

(** Own property [name] of an object built by [JSON.parse]. *)
Fixpoint field (name : string) (fields : list (string * JsValue)) : JsValue :=
  match fields with
  | [] => JUndefined
  | (k, v) :: rest => if String.eqb k name then v else field name rest
  end.

(** The property read [v.name], for the names the class reads ([id],
    [error], [message], [details], [result]): none of them is inherited
    from a built-in prototype, so only an object can answer; reading a
    property of [null] or [undefined] throws a TypeError. *)
Definition prop (v : JsValue) (name : string) : Completion JsValue :=
  match v with
  | JUndefined | JNull => Thrown "TypeError: Cannot read properties"
  | JObject fields => Normal (field name fields)
  | _ => Normal JUndefined
  end.

(** *** Errors *)

(** Modelled from the spec: utils/errors (ErrorType, McpUnityError) is
    imported by the class but is not among the sources. The three kinds
    used here are the connection, tool-execution and timeout errors of the
    specification's taxonomy; an error value is the triple of arguments
    that [new McpUnityError(type, message, details)] receives. *)
Inductive ErrorType : Type := CONNECTION | TOOL_EXECUTION | TIMEOUT.

(** Modelled from the spec: the class McpUnityError of utils/errors, as
    the record of its constructor's arguments. *)
Record McpUnityError : Type := {
  type : ErrorType;
  message : JsValue;
  details : JsValue;
}.

Definition error (t : ErrorType) (m : string) : McpUnityError :=
  {| type := t; message := JString m; details := JUndefined |}.

(** *** Promises, timers and the transport *)

Inductive Settlement : Type :=
| Resolved (value : JsValue)
| Rejected (reason : McpUnityError).

(** What a [setTimeout] callback closes over. *)
Inductive TimerCallback : Type :=
| RequestTimeout (requestId : string) (promise : nat)   (* set in sendRequest *)
| ConnectionTimeout (promise : nat).                    (* set in connect *)

Record Timer : Type := {
  set_at : Z;                 (* clock reading at setTimeout, in ms *)
  delay : Z;
  callback : TimerCallback;
}.

Inductive ReadyState : Type := CONNECTING | OPEN | CLOSING | CLOSED.

(** The socket held in [this.ws], with what its handlers close over. The
    handlers are installed by [connect] and removed by [disconnect] just
    before the reference is dropped, so exactly the socket in [this.ws]
    has them. *)
Record WebSocket : Type := {
  socket : nat;               (* identity of the object *)
  readyState : ReadyState;
  connectionTimeout : nat;    (* timer cleared by onopen and onerror *)
  connectPromise : nat;       (* promise settled by onopen and onerror *)
}.

(** resolve and reject of an entry are the two settling functions of one
    promise, the one [sendRequest] returns. *)
Record PendingRequest : Type := {
  promise : nat;
  timeout : nat;
}.

Record UnityRequest : Type := {
  id : option string;
  method : string;
  params : JsValue;
}.

(** The object serialised onto the socket: [{...request, id: requestId}]. *)
Record RequestFrame : Type := {
  frame_id : string;
  frame_method : string;
  frame_params : JsValue;
}.

(** Calls made on socket objects, newest first in [wire]. *)
Inductive TransportOp : Type :=
| WsNew (sock : nat) (port : float) (clientName : string)
| WsTerminate (sock : nat)
| WsClose (sock : nat)
| WsSend (sock : nat) (frame : RequestFrame).

(** *** Client state *)

Record McpUnity : Type := {
  (* fields of the class *)
  port : float;
  ws : option WebSocket;
  pendingRequests : gmap string PendingRequest;
  (* the runtime around it *)
  clock : Z;
  timers : gmap nat Timer;           (* timers set and not yet fired or cleared *)
  next_timer : nat;
  calls : gmap nat Settlement;       (* settled promises of sendRequest *)
  next_call : nat;
  connects : gmap nat Settlement;    (* settled promises of connect *)
  next_connect : nat;
  next_socket : nat;
  wire : list TransportOp;
}.

Definition REQUEST_TIMEOUT : Z := 10000.

Definition set_ws (w : option WebSocket) (st : McpUnity) : McpUnity :=
  {| port := port st; ws := w; pendingRequests := pendingRequests st;
     clock := clock st; timers := timers st; next_timer := next_timer st;
     calls := calls st; next_call := next_call st;
     connects := connects st; next_connect := next_connect st;
     next_socket := next_socket st; wire := wire st |}.

Definition set_pendingRequests (m : gmap string PendingRequest) (st : McpUnity)
  : McpUnity :=
  {| port := port st; ws := ws st; pendingRequests := m;
     clock := clock st; timers := timers st; next_timer := next_timer st;
     calls := calls st; next_call := next_call st;
     connects := connects st; next_connect := next_connect st;
     next_socket := next_socket st; wire := wire st |}.

Definition set_clock (c : Z) (st : McpUnity) : McpUnity :=
  {| port := port st; ws := ws st; pendingRequests := pendingRequests st;
     clock := c; timers := timers st; next_timer := next_timer st;
     calls := calls st; next_call := next_call st;
     connects := connects st; next_connect := next_connect st;
     next_socket := next_socket st; wire := wire st |}.

Definition set_timers (m : gmap nat Timer) (n : nat) (st : McpUnity) : McpUnity :=
  {| port := port st; ws := ws st; pendingRequests := pendingRequests st;
     clock := clock st; timers := m; next_timer := n;
     calls := calls st; next_call := next_call st;
     connects := connects st; next_connect := next_connect st;
     next_socket := next_socket st; wire := wire st |}.

Definition set_calls (m : gmap nat Settlement) (n : nat) (st : McpUnity) : McpUnity :=
  {| port := port st; ws := ws st; pendingRequests := pendingRequests st;
     clock := clock st; timers := timers st; next_timer := next_timer st;
     calls := m; next_call := n;
     connects := connects st; next_connect := next_connect st;
     next_socket := next_socket st; wire := wire st |}.

Definition set_connects (m : gmap nat Settlement) (n : nat) (st : McpUnity)
  : McpUnity :=
  {| port := port st; ws := ws st; pendingRequests := pendingRequests st;
     clock := clock st; timers := timers st; next_timer := next_timer st;
     calls := calls st; next_call := next_call st;
     connects := m; next_connect := n;
     next_socket := next_socket st; wire := wire st |}.

Definition set_wire (n : nat) (ops : list TransportOp) (st : McpUnity) : McpUnity :=
  {| port := port st; ws := ws st; pendingRequests := pendingRequests st;
     clock := clock st; timers := timers st; next_timer := next_timer st;
     calls := calls st; next_call := next_call st;
     connects := connects st; next_connect := next_connect st;
     next_socket := n; wire := ops |}.

(** The state the constructor leaves, given the port it resolved. *)
Definition init (p : float) : McpUnity :=
  {| port := p; ws := None; pendingRequests := ∅;
     clock := 0; timers := ∅; next_timer := 0;
     calls := ∅; next_call := 0; connects := ∅; next_connect := 0;
     next_socket := 0; wire := [] |}.

(** [new McpUnity(logger)] in process [p]. *)
Definition constructor (p : Port.Process) : Completion McpUnity :=
  let! resolved := Port.determinePort p in Normal (init resolved).

(** *** Runtime primitives *)

Definition setTimeout (cb : TimerCallback) (ms : Z) (st : McpUnity)
  : nat * McpUnity :=
  let t := next_timer st in
  (t, set_timers
        (<[t := {| set_at := clock st; delay := ms; callback := cb |}]> (timers st))
        (S t) st).

Definition clearTimeout (t : nat) (st : McpUnity) : McpUnity :=
  set_timers (delete t (timers st)) (next_timer st) st.

(** Settling a promise of [sendRequest]; a settled promise stays as it is. *)
Definition settle (p : nat) (s : Settlement) (st : McpUnity) : McpUnity :=
  match calls st !! p with
  | Some _ => st
  | None => set_calls (<[p := s]> (calls st)) (next_call st) st
  end.

Definition resolve (p : nat) (v : JsValue) : McpUnity -> McpUnity :=
  settle p (Resolved v).

Definition reject (p : nat) (e : McpUnityError) : McpUnity -> McpUnity :=
  settle p (Rejected e).

(** The same for the promise of a [connect] call. *)
Definition settle_connect (p : nat) (s : Settlement) (st : McpUnity) : McpUnity :=
  match connects st !! p with
  | Some _ => st
  | None => set_connects (<[p := s]> (connects st)) (next_connect st) st
  end.

Definition transport (op : TransportOp) (st : McpUnity) : McpUnity :=
  set_wire (next_socket st) (op :: wire st) st.

(** *** Methods of the class *)

Definition isConnected (st : McpUnity) : bool :=
  match ws st with
  | Some s => match readyState s with OPEN => true | _ => false end
  | None => false
  end.

Definition connection_closed : McpUnityError :=
  error CONNECTION "Connection closed".

(** One turn of the loop that ends [disconnect]. *)
Definition reject_entry (st : McpUnity) (entry : string * PendingRequest)
  : McpUnity :=
  let st := clearTimeout (timeout entry.2) st in
  let st := reject (promise entry.2) connection_closed st in
  set_pendingRequests (delete entry.1 (pendingRequests st)) st.

(** [disconnect]. Dropping the reference in [this.ws] is also what
    removing the four handlers amounts to: from then on no event of that
    socket reaches the client. [terminate] and [close] are taken to
    return; were one to throw, the [catch] only logs and the method goes
    on in the same way. The final loop visits the entries present when it
    starts: it removes the one it is at and adds none. It visits them in
    insertion order; the order is immaterial here, since the entries hold
    distinct timers and promises. *)
Definition disconnect (st : McpUnity) : McpUnity :=
  match ws st with
  | Some s =>
      let st :=
        match readyState s with
        | CONNECTING => transport (WsTerminate (socket s)) st
        | OPEN => transport (WsClose (socket s)) st
        | _ => st
        end in
      let st := set_ws None st in
      foldl reject_entry st (map_to_list (pendingRequests st))
  | None => st
  end.

(** [connect] up to the point where it returns its promise. The call
    [new WebSocket(url, options)] is taken to return a socket: it throws
    only for a URL it cannot parse, and then the client never holds a
    socket at all. *)
Definition connect (clientName : option string) (st : McpUnity) : nat * McpUnity :=
  let p := next_connect st in
  let st := set_connects (connects st) (S p) st in
  if isConnected st then (p, settle_connect p (Resolved JUndefined) st)
  else
    let st := disconnect st in
    let sock := next_socket st in
    let st := set_wire (S sock)
                (WsNew sock (port st) (default "" clientName) :: wire st) st in
    let '(t, st) := setTimeout (ConnectionTimeout p) REQUEST_TIMEOUT st in
    (p, set_ws (Some {| socket := sock; readyState := CONNECTING;
                        connectionTimeout := t; connectPromise := p |}) st).

(** The callback of the timer set in [connect]. *)
Definition connection_timeout (p : nat) (st : McpUnity) : McpUnity :=
  match ws st with
  | Some s =>
      match readyState s with
      | CONNECTING =>
          settle_connect p (Rejected (error CONNECTION "Connection timeout"))
            (disconnect st)
      | _ => st
      end
  | None => st
  end.

Definition reconnect (st : McpUnity) : McpUnity :=
  (connect None (disconnect st)).2.

Definition stop (st : McpUnity) : McpUnity := disconnect st.

(** [start], up to its [await]. *)
Definition start (clientName : option string) (st : McpUnity) : McpUnity :=
  (connect clientName st).2.

(** The [catch] block of [start], run if the awaited promise rejects. *)
Definition start_catch (st : McpUnity) : McpUnity := disconnect st.

(** The outcome of a method body: the state it leaves, and whether an
    exception left it. *)
Inductive Outcome : Type :=
| Done (st : McpUnity)
| Raised (message : string) (st : McpUnity).

Definition eval {A} (c : Completion A) (st : McpUnity) (k : A -> Outcome) : Outcome :=
  match c with
  | Normal a => k a
  | Thrown m => Raised m st
  end.

Notation "'eval!' x ':=' c 'in_state' st 'in' k" := (eval c st (fun x => k))
  (at level 10, x name, c at level 100, st at level 9, k at level 200).

(** [Map.prototype.get] with a key of any type: keys are compared by
    SameValueZero and every key of the table is a string. *)
Definition Map_get (key : JsValue) (m : gmap string PendingRequest)
  : option PendingRequest :=
  match key with
  | JString s => m !! s
  | _ => None
  end.

Definition Map_delete (key : JsValue) (m : gmap string PendingRequest)
  : gmap string PendingRequest :=
  match key with
  | JString s => delete s m
  | _ => m
  end.

(** The [try] block of [handleMessage]; [parsed] is what [JSON.parse(data)]
    did: the value it built, or the SyntaxError it threw. *)
Definition handleMessage_try (parsed : Completion JsValue) (st : McpUnity) : Outcome :=
  eval! response := parsed in_state st in
  eval! response_id := prop response "id" in_state st in
  if truthy response_id then
    match Map_get response_id (pendingRequests st) with
    | Some request =>
        let st := clearTimeout (timeout request) st in
        let st := set_pendingRequests
                    (Map_delete response_id (pendingRequests st)) st in
        eval! response_error := prop response "error" in_state st in
        if truthy response_error then
          eval! error_message := prop response_error "message" in_state st in
          eval! error_details := prop response_error "details" in_state st in
          Done (reject (promise request)
                  {| type := TOOL_EXECUTION;
                     message := or_else error_message (JString "Unknown error");
                     details := error_details |} st)
        else
          eval! result := prop response "result" in_state st in
          Done (resolve (promise request) result st)
    | None => Done st
    end
  else Done st.

(** [handleMessage]: the [catch] block only logs. *)
Definition handleMessage (parsed : Completion JsValue) (st : McpUnity) : Outcome :=
  match handleMessage_try parsed st with
  | Done st' => Done st'
  | Raised _ st' => Done st'
  end.

(** [request.id as string || uuidv4()]; [uuid] is what [uuidv4()] returns
    when it is called. *)
Definition requestId (request : UnityRequest) (uuid : string) : string :=
  match id request with
  | Some s => if truthy_string s then s else uuid
  | None => uuid
  end.

(** The executor of the promise that [sendRequest] returns. [send_error]
    is [Some m] when [this.ws.send(JSON.stringify(message))] throws an
    error with message [m]. *)
Definition sendRequest_executor (request : UnityRequest) (uuid : string)
    (send_error : option string) (st : McpUnity) : McpUnity :=
  let requestId := requestId request uuid in
  let message := {| frame_id := requestId; frame_method := method request;
                    frame_params := params request |} in
  let p := next_call st in
  let st := set_calls (calls st) (S p) st in
  match ws st with
  | Some s =>
      if negb (isConnected st) then
        reject p (error CONNECTION "Not connected to Unity") st
      else
        let '(t, st) := setTimeout (RequestTimeout requestId p) REQUEST_TIMEOUT st in
        let st := set_pendingRequests
                    (<[requestId := {| promise := p; timeout := t |}]>
                       (pendingRequests st)) st in
        match send_error with
        | None => transport (WsSend (socket s) message) st
        | Some m =>
            let st := clearTimeout t st in
            let st := set_pendingRequests (delete requestId (pendingRequests st)) st in
            reject p (error CONNECTION ("Send failed: " ++ m)) st
        end
  | None => reject p (error CONNECTION "Not connected to Unity") st
  end.

(** [sendRequest] up to its first suspension: a connected client runs the
    executor in the same turn; otherwise the call starts [connect] and
    awaits it. *)
Definition sendRequest (request : UnityRequest) (uuid : string)
    (send_error : option string) (st : McpUnity) : McpUnity :=
  if isConnected st then sendRequest_executor request uuid send_error st
  else (connect None st).2.

(** The rest of a suspended [sendRequest], run once the awaited promise
    has been resolved. *)
Definition sendRequest_resume (request : UnityRequest) (uuid : string)
    (send_error : option string) (st : McpUnity) : McpUnity :=
  sendRequest_executor request uuid send_error st.

(** The callback of the timer set in [sendRequest]. *)
Definition request_timeout (requestId : string) (p : nat) (st : McpUnity)
  : McpUnity :=
  let st :=
    match pendingRequests st !! requestId with
    | Some _ =>
        let st := set_pendingRequests (delete requestId (pendingRequests st)) st in
        reject p (error TIMEOUT "Request timed out") st
    | None => st
    end in
  reconnect st.

(** *** Handlers installed on the socket by [connect] *)

Definition set_readyState (r : ReadyState) (s : WebSocket) : WebSocket :=
  {| socket := socket s; readyState := r;
     connectionTimeout := connectionTimeout s; connectPromise := connectPromise s |}.

Definition onopen (s : WebSocket) (st : McpUnity) : McpUnity :=
  settle_connect (connectPromise s) (Resolved JUndefined)
    (clearTimeout (connectionTimeout s) st).

Definition onerror (s : WebSocket) (err_message : string) (st : McpUnity)
  : McpUnity :=
  let st := clearTimeout (connectionTimeout s) st in
  let reason := if truthy_string err_message then err_message else "Unknown error" in
  let st := settle_connect (connectPromise s)
              (Rejected (error CONNECTION ("Connection failed: " ++ reason))) st in
  disconnect st.

Definition onmessage (parsed : Completion JsValue) (st : McpUnity) : McpUnity :=
  match handleMessage parsed st with
  | Done st' => st'
  | Raised _ st' => st'
  end.

Definition onclose (st : McpUnity) : McpUnity := disconnect st.

(** *** The event loop *)

(** What can happen next: a call from the owner of the client, an event
    of the socket in [this.ws], a timer that is due, time passing. The
    order of events is not constrained (a suspended [sendRequest] may
    resume at any time, say): every behaviour of the class is a run of
    [step], so what holds of all runs holds of the class. *)
Inductive Event : Type :=
| CallStart (clientName : option string)
| StartFails
| CallStop
| CallSendRequest (request : UnityRequest) (uuid : string) (send_error : option string)
| ResumeSendRequest (request : UnityRequest) (uuid : string) (send_error : option string)
| SocketOpens
| SocketStartsClosing
| SocketError (err_message : string)
| SocketMessage (parsed : Completion JsValue)
| SocketCloses
| TimerFires (t : nat)
| Tick (ms : Z).

Definition run_callback (cb : TimerCallback) (st : McpUnity) : McpUnity :=
  match cb with
  | RequestTimeout requestId p => request_timeout requestId p st
  | ConnectionTimeout p => connection_timeout p st
  end.

(** A timer fires once, no earlier than its delay after it was set. *)
Definition fire (t : nat) (st : McpUnity) : McpUnity :=
  match timers st !! t with
  | Some tm =>
      if (set_at tm + delay tm <=? clock st)%Z
      then run_callback (callback tm) (clearTimeout t st)
      else st
  | None => st
  end.

Definition step (ev : Event) (st : McpUnity) : McpUnity :=
  match ev with
  | CallStart clientName => start clientName st
  | StartFails => start_catch st
  | CallStop => stop st
  | CallSendRequest request uuid send_error => sendRequest request uuid send_error st
  | ResumeSendRequest request uuid send_error =>
      sendRequest_resume request uuid send_error st
  | SocketOpens =>
      match ws st with
      | Some s =>
          match readyState s with
          | CONNECTING => onopen s (set_ws (Some (set_readyState OPEN s)) st)
          | _ => st
          end
      | None => st
      end
  | SocketStartsClosing =>
      match ws st with
      | Some s =>
          match readyState s with
          | CLOSED => st
          | _ => set_ws (Some (set_readyState CLOSING s)) st
          end
      | None => st
      end
  | SocketError err_message =>
      match ws st with
      | Some s => onerror s err_message st
      | None => st
      end
  | SocketMessage parsed =>
      match ws st with
      | Some _ => onmessage parsed st
      | None => st
      end
  | SocketCloses =>
      match ws st with
      | Some s => onclose (set_ws (Some (set_readyState CLOSED s)) st)
      | None => st
      end
  | TimerFires t => fire t st
  | Tick ms => if (0 <=? ms)%Z then set_clock (clock st + ms) st else st
  end.

Definition run (evs : list Event) (st : McpUnity) : McpUnity :=
  foldl (fun st ev => step ev st) st evs.

(** The states a client can be in: those the event loop reaches from the
    state the constructor leaves. *)
Definition reachable (st : McpUnity) : Prop :=
  exists (p : float) (evs : list Event), st = run evs (init p).

(** *** Notions used to state the properties *)

(** The transport call [disconnect] makes on the socket it drops. *)
Definition teardown (s : WebSocket) : list TransportOp :=
  match readyState s with
  | CONNECTING => [WsTerminate (socket s)]
  | OPEN => [WsClose (socket s)]
  | _ => []
  end.

(** The value of [v.name] where the read cannot throw. *)
Definition get (v : JsValue) (name : string) : JsValue :=
  match prop v name with
  | Normal x => x
  | Thrown _ => JUndefined
  end.

(** How [handleMessage] settles the request a response answers. *)
Definition settlement_of (response : JsValue) : Settlement :=
  let response_error := get response "error" in
  if truthy response_error then
    Rejected {| type := TOOL_EXECUTION;
                message := or_else (get response_error "message")
                             (JString "Unknown error");
                details := get response_error "details" |}
  else Resolved (get response "result").

(** Removing the entry [request] under [k] and settling its promise. *)
Definition complete (k : string) (request : PendingRequest) (s : Settlement)
    (st : McpUnity) : McpUnity :=
  settle (promise request) s
    (set_pendingRequests (delete k (pendingRequests st))
       (clearTimeout (timeout request) st)).

(** What holds of every reachable state. The first field is the relation
    between the socket and the table; the others say that promises and
    timers are allocated afresh and that an entry's promise is unsettled
    and found under one key only. *)
Record Inv (st : McpUnity) : Prop := {
  inv_ws : ws st = None -> pendingRequests st = ∅;
  inv_unsettled : forall k r,
    pendingRequests st !! k = Some r -> calls st !! promise r = None;
  inv_calls : forall p s, calls st !! p = Some s -> p < next_call st;
  inv_entries : forall k r,
    pendingRequests st !! k = Some r -> promise r < next_call st;
  inv_inj : forall k1 k2 r1 r2,
    pendingRequests st !! k1 = Some r1 -> pendingRequests st !! k2 = Some r2 ->
    promise r1 = promise r2 -> k1 = k2;
  inv_timers : forall t tm,
    timers st !! t = Some tm -> t < next_timer st /\ delay tm = REQUEST_TIMEOUT;
  inv_request_timers : forall t tm k p,
    timers st !! t = Some tm -> callback tm = RequestTimeout k p ->
    p < next_call st /\
    forall k' r, pendingRequests st !! k' = Some r -> promise r = p -> k' = k;
}.

(** *** Sample requests, frames and states *)

Definition request_Y : UnityRequest :=
  {| id := Some "Y"; method := "fail"; params := JObject [] |}.

Definition request_anonymous : UnityRequest :=
  {| id := Some ""; method := "ping"; params := JObject [] |}.

(** A client that is connected and has sent [request_Y]. *)
Definition awaiting_Y : McpUnity :=
  run [CallStart None; SocketOpens; CallSendRequest request_Y "u-1" None]
    (init 8090).

(** The same client 10 s later. *)
Definition overdue_Y : McpUnity := run [Tick 10000] awaiting_Y.

Definition connected : McpUnity := run [CallStart None; SocketOpens] (init 8090).

Definition stopped : McpUnity := run [CallStop] awaiting_Y.

Definition error_frame (k type_ message_ : string) : JsValue :=
  JObject [("jsonrpc", JString "2.0"); ("id", JString k);
           ("error", JObject [("message", JString message_);
                              ("type", JString type_)])].

Definition result_frame (k : string) (result : JsValue) : JsValue :=
  JObject [("jsonrpc", JString "2.0"); ("id", JString k); ("result", result)].

(** A frame whose [error] member is present and null. *)
Definition null_error_frame (k : string) (result : JsValue) : JsValue :=
  JObject [("jsonrpc", JString "2.0"); ("id", JString k);
           ("error", JNull); ("result", result)].

(** *** Further notions: timers, handshakes and the transport log *)

(** More of what holds of every reachable state: how entries, timers and
    the socket's handlers hang together. *)
Record Inv2 (st : McpUnity) : Prop := {
  inv2_entry_timer : forall k r,
    pendingRequests st !! k = Some r ->
    exists tm, timers st !! timeout r = Some tm /\
               callback tm = RequestTimeout k (promise r);
  inv2_set_at : forall t tm, timers st !! t = Some tm -> (set_at tm <= clock st)%Z;
  inv2_handshake : forall s,
    ws st = Some s -> readyState s = CONNECTING ->
    pendingRequests st = ∅ /\ connects st !! connectPromise s = None;
  inv2_socket : forall s,
    ws st = Some s ->
    socket s < next_socket st /\ connectionTimeout s < next_timer st /\
    connectPromise s < next_connect st /\
    forall tm, timers st !! connectionTimeout s = Some tm ->
               callback tm = ConnectionTimeout (connectPromise s);
  inv2_connects : forall p x, connects st !! p = Some x -> p < next_connect st;
  inv2_connection_timers : forall t tm p,
    timers st !! t = Some tm -> callback tm = ConnectionTimeout p ->
    p < next_connect st /\ connects st !! p = None /\
    forall s, ws st = Some s -> connectPromise s = p -> t = connectionTimeout s;
  inv2_connection_inj : forall t1 t2 tm1 tm2 p,
    timers st !! t1 = Some tm1 -> timers st !! t2 = Some tm2 ->
    callback tm1 = ConnectionTimeout p -> callback tm2 = ConnectionTimeout p ->
    t1 = t2;
}.

(** The frames written to sockets, newest first. *)
Definition sent (ops : list TransportOp) : list (nat * RequestFrame) :=
  omap (fun op => match op with WsSend sock f => Some (sock, f) | _ => None end) ops.

(** The transport calls [disconnect] makes in state [st]. *)
Definition torn_down (st : McpUnity) : list TransportOp :=
  match ws st with
  | Some s => teardown s
  | None => []
  end.

(** A transport call that state [st] allows: a socket is created for the
    port of the client, a frame is written to the socket held, and that
    socket is open. *)
Definition allowed (st : McpUnity) (op : TransportOp) : Prop :=
  match op with
  | WsNew _ q _ => q = port st
  | WsSend sock _ => exists s, ws st = Some s /\ socket s = sock /\ readyState s = OPEN
  | WsTerminate sock | WsClose sock => exists s, ws st = Some s /\ socket s = sock
  end.

(** The socket a transport call is made on. *)
Definition sock_of (op : TransportOp) : nat :=
  match op with
  | WsNew sock _ _ | WsTerminate sock | WsClose sock | WsSend sock _ => sock
  end.

Definition is_teardown (op : TransportOp) : bool :=
  match op with
  | WsTerminate _ | WsClose _ => true
  | _ => false
  end.

(** The socket held after a step is the one held before, if any is held
    after. *)
Definition same_socket (st st' : McpUnity) : Prop :=
  forall s', ws st' = Some s' -> exists s, ws st = Some s /\ socket s' = socket s.

(** What a step does to the transport: nothing; or one frame to the open
    socket held; or the teardown of the socket held; or that teardown
    followed by the creation of the next socket. *)
Definition step_shape (st st' : McpUnity) : Prop :=
  (wire st' = wire st /\ same_socket st st' /\ next_socket st' = next_socket st) \/
  (exists s f, ws st = Some s /\ readyState s = OPEN /\
     wire st' = WsSend (socket s) f :: wire st /\
     same_socket st st' /\ next_socket st' = next_socket st) \/
  (wire st' = (torn_down st ++ wire st)%list /\ ws st' = None /\
     next_socket st' = next_socket st) \/
  (exists c s', wire st' = (WsNew (next_socket st) (port st) c :: torn_down st ++ wire st)%list /\
     ws st' = Some s' /\ socket s' = next_socket st /\
     next_socket st' = S (next_socket st)).

(** Once a socket has been terminated or closed, no later transport call
    is made on it; [ops] is newest first. *)
Definition no_use_after_teardown (ops : list TransportOp) : Prop :=
  forall later op earlier,
    ops = (later ++ op :: earlier)%list -> is_teardown op = true ->
    forall op', op' ∈ later -> sock_of op' <> sock_of op.

Record TransportInv (st : McpUnity) : Prop := {
  tr_known : forall op, op ∈ wire st -> sock_of op < next_socket st;
  tr_held : forall s op, ws st = Some s -> op ∈ wire st -> is_teardown op = true ->
                         sock_of op <> socket s;
  tr_clean : no_use_after_teardown (wire st);
}.

(** *** Further sample states *)

Definition request_Z : UnityRequest :=
  {| id := Some "Z"; method := "ping"; params := JNull |}.

(** A client in the middle of its first handshake. *)
Definition handshaking : McpUnity := run [CallStart None] (init 8090).

(** A client stopped during a first handshake and started again 6 s later,
    seen 4 s after that: the timer of the first attempt is due, the second
    attempt is 4 s old. *)
Definition second_handshake : McpUnity :=
  run [CallStart None; CallStop; Tick 6000; CallStart None; Tick 4000] (init 8090).

(** A connected client with two requests sent 10 s ago. *)
Definition overdue_Y_Z : McpUnity :=
  run [CallSendRequest request_Z "u-2" None; Tick 10000] awaiting_Y.

(** A connected client that sent two requests under the id "Y", got the
    answer to the second, and has the timer of the first one due. *)
Definition answered_twice_Y : McpUnity :=
  run [CallSendRequest request_Y "u-2" None;
       SocketMessage (Normal (result_frame "Y" (JString "pong")));
       Tick 10000] awaiting_Y.

(** A client stopped after a request, started again and opened. *)
Definition restarted : McpUnity :=
  run [CallStop; CallStart None; SocketOpens;
       CallSendRequest request_Z "u-2" None] awaiting_Y.

(** *** Calls the client has lost track of *)

(** A call is orphaned when it has been made and is not settled, yet no
    entry of the table holds its promise and no timer names it: the
    client holds nothing that could settle it. *)
Definition orphaned (p : nat) (st : McpUnity) : Prop :=
  p < next_call st /\ calls st !! p = None /\
  (forall k r, pendingRequests st !! k = Some r -> promise r <> p) /\
  (forall t tm k, timers st !! t = Some tm -> callback tm <> RequestTimeout k p).

(** A connected client that sent a request under the id "Y", then a
    second one under "Y" whose write threw, seen 10 s after the first. *)
Definition replaced_Y : McpUnity :=
  run [CallSendRequest request_Y "u-2" (Some "socket closed"); Tick 10000]
    awaiting_Y.

End Client.

(** * Properties of port resolution *)

Module PortFacts.
Import Port.

Lemma truthy_string_true (s : string) : s <> "" -> truthy_string s = true.
Proof.
  intros Hs. unfold truthy_string.
  destruct (String.eqb_spec s "") as [->|_]; [contradiction | reflexivity].
Qed.

Lemma truthy_string_false (s : string) : truthy_string s = false -> s = "".
Proof.
  unfold truthy_string. destruct (String.eqb_spec s ""); [auto | discriminate].
Qed.

Lemma determinePort_try_value (p : Process) :
  determinePort_try p = Normal (parseInt <$> platform_value p).
Proof.
  unfold determinePort_try, platform_value.
  destruct (getPlatformSpecificPort p) as [v|m]; simpl; [|reflexivity].
  destruct (truthy_string v); reflexivity.
Qed.

(** Without a usable override the result is decided by the platform step. *)
Lemma determinePort_no_override (p : Process) :
  truthy_opt (env_UNITY_PORT p) = false ->
  determinePort p = Normal (default DEFAULT_PORT (parseInt <$> platform_value p)).
Proof.
  unfold determinePort, truthy_opt. intros Hno.
  destruct (env_UNITY_PORT p) as [s|]; [rewrite Hno|];
    rewrite determinePort_try_value; reflexivity.
Qed.

(** On win32 the platform step answers the empty string, whatever the
    registry holds. *)
Lemma getPlatformSpecificPort_win32 (p : Process) :
  platform p = "win32" -> getPlatformSpecificPort p = Normal "".
Proof. intros Hp. unfold getPlatformSpecificPort. rewrite Hp. reflexivity. Qed.

(** The macOS probe keeps its exceptions to itself. *)
Lemma getUnityPortFromMacOS_returns (p : Process) :
  exists v, getUnityPortFromMacOS p = Normal v.
Proof.
  unfold getUnityPortFromMacOS, exec.
  destruct (execSync p launchctl_command) as [out|m]; simpl; [|eauto].
  destruct (truthy_string (trim out)); [eauto|].
  destruct (execSync p shell_profile_command); simpl; eauto.
Qed.

(** C2, as amended. A non-empty override decides the result on its own:
    the result is [parseInt] of it, a NaN when it has no leading integer,
    and the platform store is not consulted. Without an override (unset or
    empty) the platform value decides when there is one, and the result is
    the default 8090 otherwise. An override of "9999" gives 9999, and the
    result is the one the specification describes whenever the override is
    unset, empty or has a leading integer. *)
Theorem determinePort_priority (p : Process) :
  (forall s, env_UNITY_PORT p = Some s -> s <> "" ->
     determinePort p = Normal (parseInt s)) /\
  (forall v, truthy_opt (env_UNITY_PORT p) = false -> platform_value p = Some v ->
     determinePort p = Normal (parseInt v)) /\
  (truthy_opt (env_UNITY_PORT p) = false -> platform_value p = None ->
     determinePort p = Normal 8090%float) /\
  (env_UNITY_PORT p = Some "9999" -> determinePort p = Normal 9999%float) /\
  ((forall s, env_UNITY_PORT p = Some s -> s = "" \/ is_nan (parseInt s) = false) ->
     determinePort p = Normal (specified_port p)).
Proof.
  assert (Hset : forall s, env_UNITY_PORT p = Some s -> s <> "" ->
                           determinePort p = Normal (parseInt s)).
  { intros s Hs Hne. unfold determinePort. rewrite Hs.
    rewrite truthy_string_true by assumption. reflexivity. }
  repeat split.
  - exact Hset.
  - intros v Hno Hv. rewrite determinePort_no_override, Hv by assumption. reflexivity.
  - intros Hno Hv. rewrite determinePort_no_override, Hv by assumption. reflexivity.
  - intros Hs. rewrite (Hset "9999") by (assumption || discriminate). reflexivity.
  - intros Hok. unfold specified_port, resolve_as_specified.
    destruct (env_UNITY_PORT p) as [s|] eqn:Hs.
    + destruct (Hok s eq_refl) as [-> | Hnum].
      * rewrite determinePort_no_override by (rewrite Hs; reflexivity).
        change (is_nan (parseInt "")) with true. simpl.
        destruct (platform_value p); reflexivity.
      * rewrite Hnum. simpl.
        destruct (String.eqb_spec s "") as [-> | Hne]; [discriminate Hnum|].
        apply Hset; [reflexivity | assumption].
    + rewrite determinePort_no_override by (rewrite Hs; reflexivity).
      destruct (platform_value p); reflexivity.
Qed.

Lemma determinePort_priority_witness :
  determinePort (linux_override "9999") = Normal 9999%float /\
  determinePort (linux_printenv "8123") = Normal 8123%float /\
  determinePort linux_unset = Normal 8090%float.
Proof.
  split; [|split].
  - apply (proj1 (determinePort_priority (linux_override "9999")) "9999");
      [reflexivity | discriminate].
  - apply (proj1 (proj2 (determinePort_priority (linux_printenv "8123"))) "8123");
      reflexivity.
  - apply (proj1 (proj2 (proj2 (determinePort_priority linux_unset))));
      reflexivity.
Defined.

(** C2, as stated, fails: with the override set to "abc" and the platform
    store answering 7777, the specified order falls through to the platform
    value, while the code returns NaN. *)
Lemma determinePort_unparseable_override :
  determinePort (linux_override "abc") = Normal nan /\
  specified_port (linux_override "abc") = 7777%float /\
  determinePort (linux_override "abc") <>
    Normal (specified_port (linux_override "abc")).
Proof.
  split; [reflexivity | split; [reflexivity | ]].
  intros H. vm_compute in H. discriminate H.
Qed.

(** C7. [determinePort] returns normally in every process; when the
    platform probe throws (and no override short-cuts it) the exception is
    caught and the result is the default port. *)
Theorem determinePort_never_throws (p : Process) :
  (exists n, determinePort p = Normal n) /\
  (forall m, truthy_opt (env_UNITY_PORT p) = false ->
     getPlatformSpecificPort p = Thrown m ->
     determinePort p = Normal DEFAULT_PORT).
Proof.
  split.
  - unfold determinePort.
    destruct (env_UNITY_PORT p) as [s|]; [destruct (truthy_string s)|];
      rewrite ?determinePort_try_value; simpl; eauto.
  - intros m Hno Hthrow. rewrite determinePort_no_override by assumption.
    unfold platform_value. rewrite Hthrow. reflexivity.
Qed.

Lemma determinePort_never_throws_witness :
  getPlatformSpecificPort linux_unset = Thrown "Command failed" /\
  determinePort linux_unset = Normal 8090%float.
Proof.
  split; [reflexivity|].
  apply (proj2 (determinePort_never_throws linux_unset) "Command failed");
    reflexivity.
Defined.

(** C8 fails on the code: with UNITY_PORT = "9000" under HKCU\Environment
    and no override, the registry callback has not run when
    [getUnityPortFromWindowsRegistry] returns, so the value is never seen
    and the port is the default one. *)
Theorem determinePort_windows_registry_9000 :
  HKCU_Environment (windows_registry "9000") !! "UNITY_PORT" = Some "9000" /\
  (getUnityPortFromWindowsRegistry (windows_registry "9000")).1 = "" /\
  (getUnityPortFromWindowsRegistry (windows_registry "9000")).2 "" = "9000" /\
  determinePort (windows_registry "9000") = Normal 8090%float.
Proof. repeat split; reflexivity. Qed.

(** The same for every win32 process without an override. *)
Lemma determinePort_win32_default (p : Process) :
  platform p = "win32" -> truthy_opt (env_UNITY_PORT p) = false ->
  determinePort p = Normal DEFAULT_PORT.
Proof.
  intros Hp Hno. rewrite determinePort_no_override by assumption.
  unfold platform_value. rewrite getPlatformSpecificPort_win32 by assumption.
  reflexivity.
Qed.

End PortFacts.

(** * Properties of the client *)

Module ClientFacts.
Import Client.

(** ** Settling promises and draining the table *)

(** A promise keeps the first settlement it gets. *)
Lemma settle_calls p s st q :
  calls (settle p s st) !! q =
    match calls st !! q with
    | Some x => Some x
    | None => if decide (q = p) then Some s else None
    end.
Proof.
  unfold settle. destruct (calls st !! p) eqn:Hp; simpl.
  - destruct (calls st !! q) eqn:Hq; [reflexivity|].
    destruct (decide _); [congruence | reflexivity].
  - rewrite lookup_insert. destruct (decide (p = q)); subst.
    + rewrite Hp. rewrite decide_True by done. done.
    + rewrite decide_False by done. destruct (calls st !! q); done.
Qed.

Lemma settle_eq p s st :
  settle p s st =
    set_calls (match calls st !! p with
               | Some _ => calls st
               | None => <[p := s]> (calls st)
               end) (next_call st) st.
Proof. unfold settle. destruct st; simpl. destruct (_ !! _); reflexivity. Qed.

Lemma reject_entry_frame st e :
  let st' := reject_entry st e in
  port st' = port st /\ ws st' = ws st /\ clock st' = clock st /\
  next_timer st' = next_timer st /\ next_call st' = next_call st /\
  connects st' = connects st /\ next_connect st' = next_connect st /\
  next_socket st' = next_socket st /\ wire st' = wire st /\
  pendingRequests st' = delete e.1 (pendingRequests st) /\
  timers st' = delete (timeout e.2) (timers st) /\
  (forall p, calls st' !! p =
             match calls st !! p with
             | Some s => Some s
             | None => if decide (p = promise e.2)
                       then Some (Rejected connection_closed) else None
             end).
Proof.
  simpl. unfold reject_entry, reject. rewrite settle_eq. simpl.
  repeat split. intros p.
  pose proof (settle_calls (promise e.2) (Rejected connection_closed) st p) as H.
  rewrite settle_eq in H. exact H.
Qed.

Ltac mem :=
  repeat match goal with
         | H : _ ∈ _ :: _ |- _ => apply elem_of_cons in H
         | H : _ ∉ _ :: _ |- _ => apply not_elem_of_cons in H
         end;
  simpl in *; intuition congruence.

(** The loop of [disconnect] over the entries [l]: their keys leave the
    table, their timers are cleared, and their promises, where still
    unsettled, are rejected. *)
Lemma foldl_reject_entry (l : list (string * PendingRequest)) (st : McpUnity) :
  let st' := foldl reject_entry st l in
  port st' = port st /\ ws st' = ws st /\ clock st' = clock st /\
  next_timer st' = next_timer st /\ next_call st' = next_call st /\
  connects st' = connects st /\ next_connect st' = next_connect st /\
  next_socket st' = next_socket st /\ wire st' = wire st /\
  (forall k, pendingRequests st' !! k =
             if decide (k ∈ l.*1) then None else pendingRequests st !! k) /\
  (forall t, timers st' !! t =
             if decide (t ∈ (timeout ∘ snd) <$> l) then None else timers st !! t) /\
  (forall p, calls st' !! p =
             match calls st !! p with
             | Some s => Some s
             | None => if decide (p ∈ (promise ∘ snd) <$> l)
                       then Some (Rejected connection_closed) else None
             end).
Proof.
  revert st. induction l as [|e l IH]; intros st; simpl.
  - repeat split; try done. intros p. destruct (calls st !! p); done.
  - destruct (IH (reject_entry st e))
      as (E1 & E2 & E3 & E4 & E5 & E6 & E7 & E8 & E9 & Hp & Ht & Hc).
    destruct (reject_entry_frame st e)
      as (F1 & F2 & F3 & F4 & F5 & F6 & F7 & F8 & F9 & Hp1 & Ht1 & Hc1).
    repeat split; try congruence.
    + intros k'. rewrite Hp, Hp1, lookup_delete.
      simpl; repeat destruct (decide _); try done; mem.
    + intros t. rewrite Ht, Ht1, lookup_delete.
      simpl; repeat destruct (decide _); try done; mem.
    + intros p. rewrite Hc, Hc1.
      destruct (calls st !! p); [done|].
      simpl; repeat destruct (decide _); try done; mem.
Qed.

Lemma disconnect_closed st : ws st = None -> disconnect st = st.
Proof. unfold disconnect. intros ->. reflexivity. Qed.

(** [disconnect] on a client that holds a socket. *)
Lemma disconnect_open st s :
  ws st = Some s ->
  let st' := disconnect st in
  port st' = port st /\ ws st' = None /\ clock st' = clock st /\
  next_timer st' = next_timer st /\ next_call st' = next_call st /\
  connects st' = connects st /\ next_connect st' = next_connect st /\
  next_socket st' = next_socket st /\ wire st' = (teardown s ++ wire st)%list /\
  pendingRequests st' = ∅ /\
  (forall t, timers st' !! t =
     if decide (t ∈ (timeout ∘ snd) <$> map_to_list (pendingRequests st))
     then None else timers st !! t) /\
  (forall p, calls st' !! p =
     match calls st !! p with
     | Some x => Some x
     | None => if decide (p ∈ (promise ∘ snd) <$> map_to_list (pendingRequests st))
               then Some (Rejected connection_closed) else None
     end).
Proof.
  intros Hws. unfold disconnect. rewrite Hws. simpl.
  set (st1 := match readyState s with
              | CONNECTING => transport (WsTerminate (socket s)) st
              | OPEN => transport (WsClose (socket s)) st
              | _ => st
              end).
  assert (H1 : port st1 = port st /\ clock st1 = clock st /\
               timers st1 = timers st /\ next_timer st1 = next_timer st /\
               calls st1 = calls st /\ next_call st1 = next_call st /\
               connects st1 = connects st /\ next_connect st1 = next_connect st /\
               next_socket st1 = next_socket st /\
               wire st1 = (teardown s ++ wire st)%list /\
               pendingRequests st1 = pendingRequests st).
  { unfold st1, teardown. destruct (readyState s); simpl; repeat split. }
  destruct H1 as (P1 & P2 & P3 & P4 & P5 & P6 & P7 & P8 & P9 & P10 & P11).
  destruct (foldl_reject_entry (map_to_list (pendingRequests st1)) (set_ws None st1))
    as (E1 & E2 & E3 & E4 & E5 & E6 & E7 & E8 & E9 & Hp & Ht & Hc).
  simpl in *. rewrite P11 in *.
  repeat split; try congruence.
  - apply map_eq. intros k. rewrite Hp, lookup_empty.
    destruct (decide _) as [|Hn]; [done|].
    destruct (pendingRequests st !! k) as [r|] eqn:Hk; [|done].
    exfalso. apply Hn. apply list_elem_of_fmap. exists (k, r).
    split; [done|]. by apply elem_of_map_to_list.
  - intros t. rewrite Ht, P3. done.
  - intros p. rewrite Hc, P5. done.
Qed.

Lemma in_timeouts (m : gmap string PendingRequest) (t : nat) :
  t ∈ (timeout ∘ snd) <$> map_to_list m <-> exists k r, m !! k = Some r /\ timeout r = t.
Proof.
  rewrite list_elem_of_fmap. split.
  - intros [[k r] [-> Hin]]. exists k, r. split; [|done]. by apply elem_of_map_to_list.
  - intros (k & r & Hk & <-). exists (k, r). split; [done|]. by apply elem_of_map_to_list.
Qed.

Lemma in_promises (m : gmap string PendingRequest) (p : nat) :
  p ∈ (promise ∘ snd) <$> map_to_list m <-> exists k r, m !! k = Some r /\ promise r = p.
Proof.
  rewrite list_elem_of_fmap. split.
  - intros [[k r] [-> Hin]]. exists k, r. split; [|done]. by apply elem_of_map_to_list.
  - intros (k & r & Hk & <-). exists (k, r). split; [done|]. by apply elem_of_map_to_list.
Qed.

(** ** The invariant holds of every reachable state *)

Lemma Inv_init p : Inv (init p).
Proof. split; simpl; intros; try done; by rewrite ?lookup_empty in *. Qed.

(** Entries only removed, timers only removed or of the connection kind. *)
Lemma Inv_shrink st st' :
  Inv st ->
  (ws st' = None -> pendingRequests st' = ∅) ->
  (forall k r, pendingRequests st' !! k = Some r -> pendingRequests st !! k = Some r) ->
  (forall t tm, timers st' !! t = Some tm ->
     timers st !! t = Some tm \/
     (t < next_timer st' /\ delay tm = REQUEST_TIMEOUT /\
      exists p, callback tm = ConnectionTimeout p)) ->
  next_timer st <= next_timer st' ->
  next_call st <= next_call st' ->
  (forall p s, calls st' !! p = Some s -> p < next_call st') ->
  (forall k r, pendingRequests st' !! k = Some r -> calls st' !! promise r = None) ->
  Inv st'.
Proof.
  intros [I1 I2 I3 I4 I5 I6 I7] Hws Hsub Htm Hnt Hnc Hcalls Hun.
  split; try assumption.
  - intros k r Hk. apply Hsub in Hk. apply I4 in Hk. lia.
  - intros k1 k2 r1 r2 H1 H2. apply (I5 k1 k2 r1 r2); auto.
  - intros t tm Ht. destruct (Htm t tm Ht) as [Hold | (? & ? & _)]; [|done].
    destruct (I6 t tm Hold). split; [lia | done].
  - intros t tm k p Ht Hcb.
    destruct (Htm t tm Ht) as [Hold | (_ & _ & [q Hq])]; [|congruence].
    destruct (I7 t tm k p Hold Hcb) as [Hlt Hkey]. split; [lia|].
    intros k' r Hk'. apply Hkey. auto.
Qed.

Lemma Inv_same st st' :
  ws st' = ws st -> pendingRequests st' = pendingRequests st ->
  timers st' = timers st -> next_timer st' = next_timer st ->
  calls st' = calls st -> next_call st' = next_call st ->
  Inv st -> Inv st'.
Proof.
  intros E1 E2 E3 E4 E5 E6 [I1 I2 I3 I4 I5 I6 I7].
  split; rewrite ?E1, ?E2, ?E3, ?E4, ?E5, ?E6; assumption.
Qed.

Lemma settle_connect_eq p s st :
  settle_connect p s st =
    set_connects (match connects st !! p with
                  | Some _ => connects st
                  | None => <[p := s]> (connects st)
                  end) (next_connect st) st.
Proof. unfold settle_connect. destruct st; simpl. destruct (_ !! _); reflexivity. Qed.

Lemma Inv_settle_connect p s st : Inv st -> Inv (settle_connect p s st).
Proof. rewrite settle_connect_eq. by apply Inv_same. Qed.

Lemma Inv_disconnect st : Inv st -> Inv (disconnect st).
Proof.
  intros HI. destruct (ws st) as [s|] eqn:Hws.
  2: { by rewrite disconnect_closed. }
  destruct (disconnect_open st s Hws)
    as (_ & E2 & _ & E4 & E5 & _ & _ & _ & _ & Hp & Ht & Hc).
  apply (Inv_shrink st); try done.
  - rewrite Hp. intros k r. by rewrite lookup_empty.
  - intros t tm. rewrite Ht. destruct (decide _); [done | auto].
  - lia.
  - lia.
  - intros p s'. rewrite Hc, E5.
    destruct (calls st !! p) eqn:Hcp.
    + intros _. by apply (inv_calls st HI p s0).
    + destruct (decide _) as [Hin|]; [|done].
      apply in_promises in Hin as (k & r & Hk & <-).
      intros _. by apply (inv_entries st HI k r).
  - rewrite Hp. intros k r. by rewrite lookup_empty.
Qed.

Lemma Inv_connect c st : Inv st -> Inv (connect c st).2.
Proof.
  intros HI. unfold connect.
  change (isConnected (set_connects ?m ?n ?s)) with (isConnected s).
  destruct (isConnected st).
  - simpl. apply Inv_settle_connect. by apply (Inv_same st).
  - set (st1 := set_connects (connects st) (S (next_connect st)) st).
    assert (H1 : Inv (disconnect st1)).
    { apply Inv_disconnect. by apply (Inv_same st). }
    destruct (setTimeout _ _ _) as [t st3] eqn:Hset.
    unfold setTimeout in Hset. injection Hset as <- <-. simpl.
    apply (Inv_shrink (disconnect st1)); simpl.
    + exact H1.
    + discriminate.
    + auto.
    + intros t tm. rewrite lookup_insert.
      destruct (decide _) as [<-|]; [|auto].
      intros [= <-]. right. simpl. split; [lia|]. split; [done|]. eauto.
    + lia.
    + lia.
    + apply (inv_calls _ H1).
    + apply (inv_unsettled _ H1).
Qed.

Lemma Inv_clearTimeout t st : Inv st -> Inv (clearTimeout t st).
Proof.
  intros HI. apply (Inv_shrink st); simpl; try done.
  - apply (inv_ws st HI).
  - intros t' tm. rewrite lookup_delete. destruct (decide _); [done | auto].
  - apply (inv_calls st HI).
  - apply (inv_unsettled st HI).
Qed.

(** Removing the entry under [k] and settling [p], when no other entry
    holds [p]. *)
Lemma Inv_complete st k p s :
  Inv st ->
  (forall k' r, pendingRequests st !! k' = Some r -> promise r = p -> k' = k) ->
  p < next_call st ->
  Inv (settle p s (set_pendingRequests (delete k (pendingRequests st)) st)).
Proof.
  intros HI Hkey Hp. rewrite settle_eq. simpl.
  apply (Inv_shrink st); simpl; try done.
  - intros Hws. rewrite (inv_ws st HI Hws). apply delete_empty.
  - intros k' r. rewrite lookup_delete. destruct (decide _); [done | auto].
  - auto.
  - intros q s'. destruct (calls st !! p) eqn:Hcp.
    + apply (inv_calls st HI).
    + rewrite lookup_insert. destruct (decide _) as [<-|]; [done|].
      apply (inv_calls st HI).
  - intros k' r. rewrite lookup_delete. destruct (decide (k = k')) as [<-|Hne]; [done|].
    intros Hk'. pose proof (inv_unsettled st HI k' r Hk') as Hun.
    destruct (calls st !! p) eqn:Hcp; [done|].
    rewrite lookup_insert_ne; [done|].
    intros ->. apply Hne. symmetry. by apply (Hkey k' r).
Qed.

Lemma prop_truthy v name : truthy v = true -> prop v name = Normal (get v name).
Proof. unfold get. destruct v; simpl; try discriminate; reflexivity. Qed.

Lemma handleMessage_matched response k request st :
  prop response "id" = Normal (JString k) -> k <> "" ->
  pendingRequests st !! k = Some request ->
  handleMessage (Normal response) st =
    Done (complete k request (settlement_of response) st).
Proof.
  intros Hid Hk Hreq.
  unfold handleMessage, handleMessage_try, eval. rewrite Hid. simpl.
  rewrite PortFacts.truthy_string_true by assumption. rewrite Hreq.
  unfold complete, settlement_of, get.
  destruct response; try discriminate Hid. simpl.
  destruct (truthy (field "error" fields)) eqn:He; [|reflexivity].
  rewrite !(prop_truthy _ _ He). reflexivity.
Qed.

Lemma handleMessage_cases parsed st :
  handleMessage parsed st = Done st \/
  exists response k request,
    parsed = Normal response /\ prop response "id" = Normal (JString k) /\
    k <> "" /\ pendingRequests st !! k = Some request.
Proof.
  destruct parsed as [response|m]; [|by left].
  destruct (prop response "id") as [response_id|m] eqn:Hid.
  2: { left. unfold handleMessage, handleMessage_try, eval. by rewrite Hid. }
  destruct (truthy response_id) eqn:Ht.
  2: { left. unfold handleMessage, handleMessage_try, eval. by rewrite Hid, Ht. }
  destruct (Map_get response_id (pendingRequests st)) as [request|] eqn:Hget.
  2: { left. unfold handleMessage, handleMessage_try, eval. by rewrite Hid, Ht, Hget. }
  right. destruct response_id as [| | | |k| |]; try discriminate Hget.
  exists response, k, request. repeat split; try done.
  intros ->. discriminate Ht.
Qed.

Lemma Inv_handleMessage parsed st :
  Inv st -> forall st', handleMessage parsed st = Done st' -> Inv st'.
Proof.
  intros HI st'.
  destruct (handleMessage_cases parsed st)
    as [-> | (response & k & request & -> & Hid & Hk & Hreq)].
  - by intros [= <-].
  - rewrite (handleMessage_matched _ _ _ _ Hid Hk Hreq). intros [= <-].
    unfold complete.
    change (pendingRequests st) with (pendingRequests (clearTimeout (timeout request) st)).
    apply Inv_complete.
    + by apply Inv_clearTimeout.
    + simpl. intros k' r Hk' Hpr. by apply (inv_inj st HI k' k r request).
    + simpl. by apply (inv_entries st HI k request).
Qed.

Lemma Inv_reconnect st : Inv st -> Inv (reconnect st).
Proof. intros HI. unfold reconnect. by apply Inv_connect, Inv_disconnect. Qed.

Lemma Inv_request_timeout k p st :
  Inv st ->
  (forall k' r, pendingRequests st !! k' = Some r -> promise r = p -> k' = k) ->
  p < next_call st ->
  Inv (request_timeout k p st).
Proof.
  intros HI Hkey Hp. unfold request_timeout. apply Inv_reconnect.
  destruct (pendingRequests st !! k); [|done].
  unfold reject. by apply Inv_complete.
Qed.

Lemma Inv_connection_timeout p st : Inv st -> Inv (connection_timeout p st).
Proof.
  intros HI. unfold connection_timeout.
  destruct (ws st) as [s|]; [|done].
  destruct (readyState s); try done.
  by apply Inv_settle_connect, Inv_disconnect.
Qed.

Lemma Inv_fire t st : Inv st -> Inv (fire t st).
Proof.
  intros HI. unfold fire.
  destruct (timers st !! t) as [tm|] eqn:Ht; [|done].
  destruct (_ <=? _)%Z; [|done].
  destruct (callback tm) as [k p|p] eqn:Hcb; simpl.
  - destruct (inv_request_timers st HI t tm k p Ht Hcb) as [Hp Hkey].
    apply Inv_request_timeout; [by apply Inv_clearTimeout | exact Hkey | exact Hp].
  - by apply Inv_connection_timeout, Inv_clearTimeout.
Qed.

Lemma Inv_sendRequest_executor request uuid send_error st :
  Inv st -> Inv (sendRequest_executor request uuid send_error st).
Proof.
  intros HI. unfold sendRequest_executor.
  set (k := requestId request uuid). set (p := next_call st).
  assert (Hfail : forall e, Inv (reject p e (set_calls (calls st) (S p) st))).
  { intros e. unfold reject. rewrite settle_eq. simpl.
    apply (Inv_shrink st); simpl; try done; try lia.
    - apply (inv_ws st HI).
    - auto.
    - intros q s. destruct (calls st !! p).
      + intros Hq. apply (inv_calls st HI) in Hq. fold p in Hq. lia.
      + rewrite lookup_insert. destruct (decide _) as [<-|]; [lia|].
        intros Hq. apply (inv_calls st HI) in Hq. fold p in Hq. lia.
    - intros k' r Hk'. pose proof (inv_entries st HI k' r Hk') as Hlt. fold p in Hlt.
      pose proof (inv_unsettled st HI k' r Hk') as Hun.
      destruct (calls st !! p); [done|]. rewrite lookup_insert_ne; [done | lia]. }
  simpl. destruct (ws st) as [s|] eqn:Hws; [|apply Hfail].
  change (isConnected (set_calls ?m ?n ?s)) with (isConnected s).
  destruct (isConnected st); simpl; [|apply Hfail].
  destruct send_error as [m|]; simpl.
  - unfold reject. rewrite settle_eq. simpl.
    apply (Inv_shrink st); simpl; try done; try lia.
    + rewrite Hws. discriminate.
    + intros k' r. rewrite lookup_delete. destruct (decide _); [done|].
      rewrite lookup_insert_ne by done. auto.
    + intros t tm. rewrite lookup_delete. destruct (decide _); [done|].
      rewrite lookup_insert_ne by done. auto.
    + intros q s'. destruct (calls st !! p).
      * intros Hq. apply (inv_calls st HI) in Hq. fold p in Hq. lia.
      * rewrite lookup_insert. destruct (decide _) as [<-|]; [lia|].
        intros Hq. apply (inv_calls st HI) in Hq. fold p in Hq. lia.
    + intros k' r. rewrite lookup_delete. destruct (decide _); [done|].
      rewrite lookup_insert_ne by done. intros Hk'.
      pose proof (inv_entries st HI k' r Hk') as Hlt. fold p in Hlt.
      pose proof (inv_unsettled st HI k' r Hk') as Hun.
      destruct (calls st !! p); [done|]. rewrite lookup_insert_ne; [done | lia].
  - split; simpl.
    + rewrite Hws. discriminate.
    + intros k' r. rewrite lookup_insert. destruct (decide _) as [<-|].
      * intros [= <-]. simpl. destruct (calls st !! p) eqn:Hp; [|done].
        apply (inv_calls st HI) in Hp. fold p in Hp. lia.
      * apply (inv_unsettled st HI).
    + intros q s' Hq. apply (inv_calls st HI) in Hq. fold p in Hq. lia.
    + intros k' r. rewrite lookup_insert. destruct (decide _) as [<-|].
      * intros [= <-]. simpl. lia.
      * intros Hk'. apply (inv_entries st HI) in Hk'. fold p in Hk'. lia.
    + intros k1 k2 r1 r2. rewrite !lookup_insert.
      destruct (decide (k = k1)) as [<-|]; destruct (decide (k = k2)) as [<-|];
        try done.
      * intros [= <-] Hk2 Heq. simpl in Heq.
        apply (inv_entries st HI) in Hk2. fold p in Hk2. lia.
      * intros Hk1 [= <-] Heq. simpl in Heq.
        apply (inv_entries st HI) in Hk1. fold p in Hk1. lia.
      * apply (inv_inj st HI).
    + intros t tm. rewrite lookup_insert. destruct (decide _) as [<-|].
      * intros [= <-]. simpl. split; [lia | done].
      * intros Ht. destruct (inv_timers st HI t tm Ht). split; [lia | done].
    + intros t tm k' q. rewrite lookup_insert. destruct (decide _) as [<-|].
      * intros [= <-]. simpl. intros [= <- <-]. split; [lia|].
        intros k' r. rewrite lookup_insert. destruct (decide _) as [<-|]; [done|].
        intros Hk' Heq. apply (inv_entries st HI) in Hk'. fold p in Hk'. lia.
      * intros Ht Hcb. destruct (inv_request_timers st HI t tm k' q Ht Hcb) as [Hq Hkey].
        split; [lia|]. intros k'' r. rewrite lookup_insert.
        destruct (decide _) as [<-|]; [|by apply Hkey].
        intros [= <-]. simpl. fold p in Hq. lia.
Qed.

Lemma Inv_set_ws s st : Inv st -> Inv (set_ws (Some s) st).
Proof.
  intros [I1 I2 I3 I4 I5 I6 I7]. split; try assumption. discriminate.
Qed.

Lemma Inv_step ev st : Inv st -> Inv (step ev st).
Proof.
  intros HI. destruct ev; simpl.
  - by apply Inv_connect.
  - by apply Inv_disconnect.
  - by apply Inv_disconnect.
  - unfold sendRequest. destruct (isConnected st).
    + by apply Inv_sendRequest_executor.
    + by apply Inv_connect.
  - by apply Inv_sendRequest_executor.
  - destruct (ws st) as [s|]; [|done]. destruct (readyState s); try done.
    by apply Inv_settle_connect, Inv_clearTimeout, Inv_set_ws.
  - destruct (ws st) as [s|]; [|done].
    destruct (readyState s); try done; by apply Inv_set_ws.
  - destruct (ws st) as [s|]; [|done].
    by apply Inv_disconnect, Inv_settle_connect, Inv_clearTimeout.
  - destruct (ws st) as [s|]; [|done]. unfold onmessage.
    destruct (handleMessage parsed st) as [st'|m st'] eqn:Hh.
    + by apply (Inv_handleMessage parsed st).
    + unfold handleMessage in Hh. destruct (handleMessage_try parsed st); discriminate.
  - destruct (ws st) as [s|]; [|done]. by apply Inv_disconnect, Inv_set_ws.
  - by apply Inv_fire.
  - destruct (0 <=? ms)%Z; [|done]. by apply (Inv_same st).
Qed.

Lemma Inv_run evs st : Inv st -> Inv (run evs st).
Proof.
  revert st. induction evs as [|ev evs IH]; intros st HI; simpl; [done|].
  apply IH. by apply Inv_step.
Qed.

Lemma reachable_Inv st : reachable st -> Inv st.
Proof. intros (p & evs & ->). apply Inv_run, Inv_init. Qed.

Lemma reachable_step ev st : reachable st -> reachable (step ev st).
Proof.
  intros (p & evs & ->). exists p, (evs ++ [ev])%list.
  unfold run. by rewrite foldl_app.
Qed.

(** ** Closed-form descriptions of the methods *)

Lemma connect_from_closed c st :
  ws st = None ->
  let st' := (connect c st).2 in
  ws st' = Some {| socket := next_socket st; readyState := CONNECTING;
                   connectionTimeout := next_timer st;
                   connectPromise := next_connect st |} /\
  pendingRequests st' = pendingRequests st /\
  calls st' = calls st /\
  wire st' = WsNew (next_socket st) (port st) (default "" c) :: wire st.
Proof.
  intros Hws. unfold connect, isConnected. simpl. rewrite Hws.
  rewrite disconnect_closed by done. simpl. repeat split.
Qed.

Lemma complete_spec k request s st :
  calls st !! promise request = None ->
  let st' := complete k request s st in
  timers st' = delete (timeout request) (timers st) /\
  pendingRequests st' = delete k (pendingRequests st) /\
  calls st' !! promise request = Some s /\
  ws st' = ws st /\ wire st' = wire st.
Proof.
  intros Hun. unfold complete. rewrite settle_eq. simpl. rewrite Hun.
  rewrite lookup_insert_eq. repeat split.
Qed.

Lemma sendRequest_connected request uuid send_error st :
  isConnected st = true ->
  sendRequest request uuid send_error st =
    sendRequest_executor request uuid send_error st /\
  exists s, ws st = Some s /\ readyState s = OPEN.
Proof.
  intros Hc. unfold sendRequest. rewrite Hc. split; [done|].
  unfold isConnected in Hc. destruct (ws st) as [s|]; [|discriminate].
  exists s. split; [done|]. by destruct (readyState s).
Qed.

(** What the executor does on a connected client. *)
Lemma sendRequest_executor_connected request uuid send_error st s :
  ws st = Some s -> isConnected st = true ->
  let k := requestId request uuid in
  let entry := {| promise := next_call st; timeout := next_timer st |} in
  let tm := {| set_at := clock st; delay := REQUEST_TIMEOUT;
               callback := RequestTimeout k (next_call st) |} in
  sendRequest_executor request uuid send_error st =
    match send_error with
    | None =>
        transport (WsSend (socket s)
                     {| frame_id := k; frame_method := method request;
                        frame_params := params request |})
          (set_pendingRequests (<[k := entry]> (pendingRequests st))
             (set_timers (<[next_timer st := tm]> (timers st)) (S (next_timer st))
                (set_calls (calls st) (S (next_call st)) st)))
    | Some m =>
        reject (next_call st) (error CONNECTION ("Send failed: " ++ m))
          (set_pendingRequests (delete k (<[k := entry]> (pendingRequests st)))
             (set_timers (delete (next_timer st) (<[next_timer st := tm]> (timers st)))
                (S (next_timer st))
                (set_calls (calls st) (S (next_call st)) st)))
    end.
Proof.
  intros Hws Hc. unfold sendRequest_executor. simpl. rewrite Hws.
  change (isConnected (set_calls ?m ?n ?x)) with (isConnected x). rewrite Hc. simpl.
  destruct send_error; reflexivity.
Qed.

(** ** Sample states are reachable *)

Lemma reachable_awaiting_Y : reachable awaiting_Y.
Proof.
  exists 8090%float,
    [CallStart None; SocketOpens; CallSendRequest request_Y "u-1" None].
  vm_compute. reflexivity.
Qed.

Lemma reachable_overdue_Y : reachable overdue_Y.
Proof. apply (reachable_step (Tick 10000)), reachable_awaiting_Y. Qed.

Lemma reachable_connected : reachable connected.
Proof.
  exists 8090%float, [CallStart None; SocketOpens]. vm_compute. reflexivity.
Qed.

(** ** Calls that nothing can settle *)

Lemma orphaned_mono p st st' :
  orphaned p st -> next_call st <= next_call st' ->
  calls st' !! p = calls st !! p ->
  (forall k r, pendingRequests st' !! k = Some r ->
     pendingRequests st !! k = Some r \/ promise r <> p) ->
  (forall t tm, timers st' !! t = Some tm ->
     timers st !! t = Some tm \/ forall k, callback tm <> RequestTimeout k p) ->
  orphaned p st'.
Proof.
  intros (Hp & Hc & He & Ht) Hn Hcalls Hsub Htm.
  split; [lia|]. split; [congruence|]. split.
  - intros k r Hk. destruct (Hsub k r Hk) as [H|H]; [by apply (He k)|done].
  - intros t tm k Hl. destruct (Htm t tm Hl) as [H|H]; [by apply (Ht t)|apply H].
Qed.

Lemma orphaned_settle p q s st :
  q <> p -> orphaned p st -> orphaned p (settle q s st).
Proof.
  intros Hq Ho. pose proof Ho as (_ & Hc & _).
  apply (orphaned_mono p st); [done| | | |].
  2: { rewrite settle_calls, Hc. by rewrite decide_False by congruence. }
  all: rewrite settle_eq; simpl; auto.
Qed.

Lemma orphaned_disconnect p st : orphaned p st -> orphaned p (disconnect st).
Proof.
  intros Ho. pose proof Ho as (_ & Hc & He & _).
  destruct (ws st) as [s|] eqn:Hws.
  2: { by rewrite disconnect_closed. }
  destruct (disconnect_open st s Hws)
    as (_ & _ & _ & _ & D5 & _ & _ & _ & _ & D10 & D11 & D12).
  apply (orphaned_mono p st); [done|lia| | |].
  - rewrite D12, Hc. rewrite decide_False; [done|]. intros Hin.
    apply in_promises in Hin. destruct Hin as (k & r & Hk & Hr).
    by apply (He k r).
  - intros k r. by rewrite D10, lookup_empty.
  - intros t tm. rewrite D11. destruct (decide _); [done|auto].
Qed.

Lemma orphaned_settle_connect p q s st :
  orphaned p st -> orphaned p (settle_connect q s st).
Proof.
  intros Ho. rewrite settle_connect_eq. apply (orphaned_mono p st); simpl; auto.
Qed.

Lemma orphaned_clearTimeout p t st :
  orphaned p st -> orphaned p (clearTimeout t st).
Proof.
  intros Ho. apply (orphaned_mono p st); simpl; auto.
  intros t' tm Hl. apply lookup_delete_Some in Hl. tauto.
Qed.

Lemma orphaned_connect p cn st : orphaned p st -> orphaned p (connect cn st).2.
Proof.
  intros Ho. unfold connect.
  change (isConnected (set_connects (connects st) (S (next_connect st)) st))
    with (isConnected st).
  set (st1 := set_connects (connects st) (S (next_connect st)) st).
  assert (Ho1 : orphaned p st1) by (apply (orphaned_mono p st); simpl; auto).
  destruct (isConnected st).
  - by apply orphaned_settle_connect.
  - apply (orphaned_mono p (disconnect st1)); simpl; auto.
    + by apply orphaned_disconnect.
    + intros t tm Hl. apply lookup_insert_Some in Hl.
      destruct Hl as [[_ <-]|[_ Hl]]; [right; done|by left].
Qed.

Lemma orphaned_sendRequest_executor p request uuid send_error st :
  orphaned p st -> orphaned p (sendRequest_executor request uuid send_error st).
Proof.
  intros Ho. pose proof Ho as (Hp & _).
  assert (Hq : next_call st <> p) by lia.
  unfold sendRequest_executor, reject.
  set (st1 := set_calls (calls st) (S (next_call st)) st).
  assert (Ho1 : orphaned p st1) by (apply (orphaned_mono p st); simpl; auto).
  change (ws st1) with (ws st). change (isConnected st1) with (isConnected st).
  destruct (ws st) as [s|]; [|by apply orphaned_settle].
  destruct (isConnected st); simpl; [|by apply orphaned_settle].
  destruct send_error as [m|].
  - apply orphaned_settle; [done|].
    apply (orphaned_mono p st); simpl; auto.
    + intros k r Hl. apply lookup_delete_Some in Hl. destruct Hl as [_ Hl].
      apply lookup_insert_Some in Hl. destruct Hl as [[_ <-]|[_ Hl]]; auto.
    + intros t tm Hl. apply lookup_delete_Some in Hl. destruct Hl as [_ Hl].
      apply lookup_insert_Some in Hl. destruct Hl as [[_ <-]|[_ Hl]]; auto.
      right. simpl. congruence.
  - apply (orphaned_mono p st); simpl; auto.
    + intros k r Hl.
      apply lookup_insert_Some in Hl. destruct Hl as [[_ <-]|[_ Hl]]; auto.
    + intros t tm Hl.
      apply lookup_insert_Some in Hl. destruct Hl as [[_ <-]|[_ Hl]]; auto.
      right. simpl. congruence.
Qed.

Lemma orphaned_complete p k request s st :
  pendingRequests st !! k = Some request ->
  orphaned p st -> orphaned p (complete k request s st).
Proof.
  intros Hk Ho. pose proof Ho as (_ & _ & He & _).
  unfold complete. apply orphaned_settle; [by apply (He k)|].
  apply (orphaned_mono p (clearTimeout (timeout request) st)); simpl; auto.
  - by apply orphaned_clearTimeout.
  - intros k' r Hl. apply lookup_delete_Some in Hl. tauto.
Qed.

Lemma orphaned_request_timeout p k q st :
  q <> p -> orphaned p st -> orphaned p (request_timeout k q st).
Proof.
  intros Hq Ho. unfold request_timeout, reconnect, reject.
  apply orphaned_connect, orphaned_disconnect.
  destruct (pendingRequests st !! k); [|done].
  apply orphaned_settle; [done|]. apply (orphaned_mono p st); simpl; auto.
  intros k' r Hl. apply lookup_delete_Some in Hl. tauto.
Qed.

Lemma orphaned_fire p t st : orphaned p st -> orphaned p (fire t st).
Proof.
  intros Ho. pose proof Ho as (_ & _ & _ & Ht). unfold fire.
  destruct (timers st !! t) as [tm|] eqn:Htm; [|done].
  destruct (_ <=? _)%Z; [|done].
  pose proof (orphaned_clearTimeout p t st Ho) as Ho1.
  destruct (callback tm) as [k q|q] eqn:Hcb; simpl.
  - apply orphaned_request_timeout; [|done].
    intros ->. by apply (Ht t tm k).
  - unfold connection_timeout.
    change (ws (clearTimeout t st)) with (ws st).
    destruct (ws st) as [s|]; [|done].
    destruct (readyState s); try done.
    by apply orphaned_settle_connect, orphaned_disconnect.
Qed.

(** Every step of the event loop leaves an orphaned call orphaned. *)
Lemma orphaned_step p ev st : orphaned p st -> orphaned p (step ev st).
Proof.
  intros Ho. destruct ev as [cn| | |rq u e|rq u e| | |m|parsed| |t|ms]; simpl.
  - by apply orphaned_connect.
  - by apply orphaned_disconnect.
  - by apply orphaned_disconnect.
  - unfold sendRequest. destruct (isConnected st).
    + by apply orphaned_sendRequest_executor.
    + by apply orphaned_connect.
  - by apply orphaned_sendRequest_executor.
  - destruct (ws st) as [s|]; [|done]. destruct (readyState s); try done.
    unfold onopen. apply orphaned_settle_connect, orphaned_clearTimeout.
    apply (orphaned_mono p st); simpl; auto.
  - destruct (ws st) as [s|]; [|done]. destruct (readyState s); try done;
      apply (orphaned_mono p st); simpl; auto.
  - destruct (ws st) as [s|]; [|done]. unfold onerror.
    by apply orphaned_disconnect, orphaned_settle_connect, orphaned_clearTimeout.
  - destruct (ws st) as [s|]; [|done]. unfold onmessage.
    destruct (handleMessage_cases parsed st)
      as [H|(response & k & request & -> & Hid & Hk & Hl)].
    + by rewrite H.
    + rewrite (handleMessage_matched response k request st Hid Hk Hl).
      by apply orphaned_complete.
  - destruct (ws st) as [s|]; [|done]. unfold onclose.
    apply orphaned_disconnect. apply (orphaned_mono p st); simpl; auto.
  - by apply orphaned_fire.
  - destruct (0 <=? ms)%Z; [|done]. apply (orphaned_mono p st); simpl; auto.
Qed.

(** An orphaned call is never settled, whatever happens next. *)
Lemma orphaned_run p evs st : orphaned p st -> orphaned p (run evs st).
Proof.
  revert st. induction evs as [|ev evs IH]; intros st Ho; [done|].
  apply (IH (step ev st)), orphaned_step, Ho.
Qed.

(** ** The claims *)

(** C1. The timer of a request has a delay of 10 000 ms. When it fires
    and the request's own entry is still in the table (no response has
    matched it, the connection has not been torn down and no later request
    under the same id has replaced it since the timer was set), the entry
    is removed, the call is rejected with the TIMEOUT error, and the
    client reconnects: the socket it held is torn down and a new one, in
    state CONNECTING, takes its place, so that [isConnected] is false. *)
Theorem request_timeout_fires st t tm k p :
  reachable st ->
  timers st !! t = Some tm ->
  callback tm = RequestTimeout k p ->
  pendingRequests st !! k = Some {| promise := p; timeout := t |} ->
  (set_at tm + 10000 <= clock st)%Z ->
  let st' := step (TimerFires t) st in
  delay tm = 10000%Z /\
  pendingRequests st' !! k = None /\
  calls st' !! p = Some (Rejected (error TIMEOUT "Request timed out")) /\
  isConnected st' = false /\
  exists s,
    ws st = Some s /\
    ws st' = Some {| socket := next_socket st; readyState := CONNECTING;
                     connectionTimeout := next_timer st;
                     connectPromise := next_connect st |} /\
    wire st' = (WsNew (next_socket st) (port st) "" :: teardown s ++ wire st)%list.
Proof.
  intros Hreach Ht Hcb Hk Hdue.
  pose proof (reachable_Inv st Hreach) as HI.
  destruct (ws st) as [s|] eqn:Hws.
  2: { rewrite (inv_ws st HI Hws), lookup_empty in Hk. discriminate. }
  destruct (inv_timers st HI t tm Ht) as [_ Hdelay].
  pose proof (inv_unsettled st HI k _ Hk) as Hun. simpl in Hun.
  split; [exact Hdelay|].
  simpl. unfold fire. rewrite Ht, Hdelay, Hcb.
  replace (set_at tm + REQUEST_TIMEOUT <=? clock st)%Z with true
    by (symmetry; apply Z.leb_le; exact Hdue).
  simpl. unfold request_timeout. simpl. rewrite Hk.
  set (st2 := reject p _ _).
  assert (H2 : ws st2 = Some s /\
               calls st2 !! p = Some (Rejected (error TIMEOUT "Request timed out")) /\
               wire st2 = wire st /\ next_socket st2 = next_socket st /\
               next_timer st2 = next_timer st /\
               next_connect st2 = next_connect st /\ port st2 = port st).
  { unfold st2, reject. rewrite settle_eq. simpl. rewrite Hun.
    rewrite lookup_insert_eq. repeat split; done. }
  destruct H2 as (W2 & C2 & Wi2 & N1 & N2 & N3 & P2).
  destruct (disconnect_open st2 s W2)
    as (D1 & D2 & _ & D4 & _ & _ & D7 & D8 & D9 & D10 & _ & D12).
  unfold reconnect.
  destruct (connect_from_closed None (disconnect st2) D2) as (K1 & K2 & K3 & K4).
  simpl in K4.
  split; [by rewrite K2, D10, lookup_empty|].
  split; [by rewrite K3, D12, C2|].
  split; [unfold isConnected; by rewrite K1|].
  exists s. split; [done|].
  split; [rewrite K1; congruence|].
  rewrite K4, D9, D8, D1. congruence.
Qed.

Lemma request_timeout_fires_witness :
  pendingRequests (step (TimerFires 1) overdue_Y) !! "Y" = None /\
  calls (step (TimerFires 1) overdue_Y) !! 0 =
    Some (Rejected (error TIMEOUT "Request timed out")) /\
  isConnected (step (TimerFires 1) overdue_Y) = false.
Proof.
  pose proof (request_timeout_fires overdue_Y 1
                {| set_at := 0; delay := 10000; callback := RequestTimeout "Y" 0 |}
                "Y" 0 reachable_overdue_Y) as H.
  destruct H as (_ & H1 & H2 & H3 & _).
  - vm_compute. reflexivity.
  - reflexivity.
  - vm_compute. reflexivity.
  - vm_compute. discriminate.
  - exact (conj H1 (conj H2 H3)).
Defined.

(** C1, as stated, fails for a call whose entry a later call has taken
    over. A request is sent under the id "Y"; a second request under "Y"
    replaces its entry and, its write failing, removes the entry. No
    response arrives. When the timer of the first call fires 10 s after
    it was set, no entry is found under "Y": the call is not rejected,
    though the client reconnects; and from then on nothing the client
    holds refers to the call, so that no later event settles it. *)
Lemma request_timeout_skips_replaced_call :
  reachable replaced_Y /\
  timers replaced_Y !! 1 =
    Some {| set_at := 0; delay := 10000; callback := RequestTimeout "Y" 0 |} /\
  clock replaced_Y = 10000%Z /\
  calls replaced_Y !! 0 = None /\
  pendingRequests replaced_Y !! "Y" = None /\
  calls (step (TimerFires 1) replaced_Y) !! 0 = None /\
  isConnected (step (TimerFires 1) replaced_Y) = false /\
  forall evs, calls (run evs (step (TimerFires 1) replaced_Y)) !! 0 = None.
Proof.
  split.
  { exists 8090%float,
      [CallStart None; SocketOpens; CallSendRequest request_Y "u-1" None;
       CallSendRequest request_Y "u-2" (Some "socket closed"); Tick 10000].
    vm_compute. reflexivity. }
  split; [vm_compute; reflexivity|]. split; [vm_compute; reflexivity|].
  split; [vm_compute; reflexivity|]. split; [vm_compute; reflexivity|].
  split; [vm_compute; reflexivity|]. split; [vm_compute; reflexivity|].
  intros evs.
  assert (Ho : orphaned 0 (step (TimerFires 1) replaced_Y)).
  { assert (Hn : next_call (step (TimerFires 1) replaced_Y) = 2)
      by (vm_compute; reflexivity).
    assert (Hc : calls (step (TimerFires 1) replaced_Y) !! 0 = None)
      by (vm_compute; reflexivity).
    assert (Hp : pendingRequests (step (TimerFires 1) replaced_Y) = ∅)
      by (vm_compute; reflexivity).
    assert (Ht : timers (step (TimerFires 1) replaced_Y) =
                 {[ 3 := {| set_at := 10000; delay := 10000;
                            callback := ConnectionTimeout 1 |} ]})
      by (vm_compute; reflexivity).
    unfold orphaned. rewrite Hn, Hp, Ht. split; [lia|]. split; [exact Hc|]. split.
    - intros k r Hl. by rewrite lookup_empty in Hl.
    - intros t tm k Hl. apply lookup_singleton_Some in Hl.
      destruct Hl as [_ <-]. discriminate. }
  destruct (orphaned_run 0 evs _ Ho) as (_ & Hc & _). exact Hc.
Qed.

(** C3, as amended. A response whose id matches a pending request clears
    the request's timer, removes its entry and settles the call: resolved
    with the frame's [result] when the frame's [error] is absent or falsy,
    rejected otherwise with an error of type TOOL_EXECUTION that carries
    the frame's [error.message] (or "Unknown error" when that is absent or
    falsy) and [error.details]. The frame's [error.type] is not read. *)
Theorem response_completes_request st response k request :
  reachable st ->
  prop response "id" = Normal (JString k) -> k <> "" ->
  pendingRequests st !! k = Some request ->
  exists st',
    handleMessage (Normal response) st = Done st' /\
    timers st' !! timeout request = None /\
    pendingRequests st' !! k = None /\
    ws st' = ws st /\
    calls st' !! promise request =
      Some (if truthy (get response "error")
            then Rejected {| type := TOOL_EXECUTION;
                             message := or_else (get (get response "error") "message")
                                          (JString "Unknown error");
                             details := get (get response "error") "details" |}
            else Resolved (get response "result")).
Proof.
  intros Hreach Hid Hk Hreq.
  pose proof (inv_unsettled st (reachable_Inv st Hreach) k request Hreq) as Hun.
  eexists. split; [by apply handleMessage_matched|].
  destruct (complete_spec k request (settlement_of response) st Hun)
    as (T & P & C & W & _).
  rewrite T, P, C, !lookup_delete_eq. repeat split; done.
Qed.

Lemma response_completes_request_witness :
  exists st',
    handleMessage (Normal (error_frame "Y" "TOOL_EXECUTION" "bad op")) awaiting_Y
      = Done st' /\
    timers st' !! 1 = None /\
    pendingRequests st' !! "Y" = None /\
    calls st' !! 0 =
      Some (Rejected {| type := TOOL_EXECUTION; message := JString "bad op";
                        details := JUndefined |}).
Proof.
  pose proof (response_completes_request awaiting_Y
                (error_frame "Y" "TOOL_EXECUTION" "bad op") "Y"
                {| promise := 0; timeout := 1 |} reachable_awaiting_Y) as H.
  destruct H as (st' & H1 & H2 & H3 & _ & H5).
  - vm_compute. reflexivity.
  - discriminate.
  - vm_compute. reflexivity.
  - exists st'. exact (conj H1 (conj H2 (conj H3 H5))).
Defined.

(** C3, as stated, fails. Two error frames that differ only in their
    [type] settle the call in the same way, so the rejection does not
    carry the frame's type; an error frame with an empty message is
    reported as "Unknown error"; and a frame whose [error] member is
    present but null resolves the call. *)
Lemma handleMessage_ignores_error_type :
  handleMessage (Normal (error_frame "Y" "VALIDATION" "bad op")) awaiting_Y =
    handleMessage (Normal (error_frame "Y" "TOOL_EXECUTION" "bad op")) awaiting_Y /\
  handleMessage (Normal (error_frame "Y" "VALIDATION" "")) awaiting_Y =
    Done (complete "Y" {| promise := 0; timeout := 1 |}
            (Rejected (error TOOL_EXECUTION "Unknown error")) awaiting_Y) /\
  handleMessage (Normal (null_error_frame "Y" (JString "pong"))) awaiting_Y =
    Done (complete "Y" {| promise := 0; timeout := 1 |}
            (Resolved (JString "pong")) awaiting_Y).
Proof. split; [|split]; vm_compute; reflexivity. Qed.

(** C4. In every reachable state [stop] is idempotent, leaves the table
    empty and the client not connected, and for each entry of the table it
    clears the entry's timer and rejects its call with the CONNECTION
    error "Connection closed". *)
Theorem stop_rejects_pending st :
  reachable st ->
  stop (stop st) = stop st /\
  pendingRequests (stop st) = ∅ /\
  ws (stop st) = None /\
  isConnected (stop st) = false /\
  forall k r, pendingRequests st !! k = Some r ->
    timers (stop st) !! timeout r = None /\
    calls (stop st) !! promise r =
      Some (Rejected (error CONNECTION "Connection closed")).
Proof.
  intros Hreach. pose proof (reachable_Inv st Hreach) as HI. unfold stop.
  destruct (ws st) as [s|] eqn:Hws.
  - destruct (disconnect_open st s Hws)
      as (_ & D2 & _ & _ & _ & _ & _ & _ & _ & D10 & D11 & D12).
    split; [by apply disconnect_closed|]. split; [done|]. split; [done|].
    split; [unfold isConnected; by rewrite D2|].
    intros k r Hk. split.
    + rewrite D11. rewrite decide_True by (apply in_timeouts; eauto). done.
    + rewrite D12, (inv_unsettled st HI k r Hk).
      rewrite decide_True by (apply in_promises; eauto). reflexivity.
  - rewrite !(disconnect_closed st) by done.
    split; [done|]. split; [by apply (inv_ws st HI)|]. split; [done|].
    split; [unfold isConnected; by rewrite Hws|].
    intros k r. rewrite (inv_ws st HI Hws), lookup_empty. discriminate.
Qed.

Lemma stop_rejects_pending_witness :
  stop (stop awaiting_Y) = stop awaiting_Y /\
  pendingRequests (stop awaiting_Y) = ∅ /\
  isConnected (stop awaiting_Y) = false /\
  timers (stop awaiting_Y) !! 1 = None /\
  calls (stop awaiting_Y) !! 0 =
    Some (Rejected (error CONNECTION "Connection closed")).
Proof.
  destruct (stop_rejects_pending awaiting_Y reachable_awaiting_Y)
    as (H1 & H2 & _ & H4 & H5).
  destruct (H5 "Y" {| promise := 0; timeout := 1 |}) as [H6 H7];
    [vm_compute; reflexivity|].
  exact (conj H1 (conj H2 (conj H4 (conj H6 H7)))).
Defined.

(** C5. A frame that [JSON.parse] rejects, or whose id names no entry of
    the table (no id at all included), changes nothing: [handleMessage]
    returns normally and leaves the whole client state, table and socket
    included, as it was. *)
Theorem handleMessage_inert parsed st :
  ((exists m, parsed = Thrown m) \/
   (forall response k, parsed = Normal response ->
      prop response "id" = Normal (JString k) -> pendingRequests st !! k = None)) ->
  handleMessage parsed st = Done st /\ onmessage parsed st = st.
Proof.
  intros Hdrop.
  assert (H : handleMessage parsed st = Done st).
  { destruct (handleMessage_cases parsed st)
      as [H | (response & k & request & -> & Hid & Hk & Hreq)]; [done|].
    destruct Hdrop as [[m [=]] | Hno].
    rewrite (Hno response k eq_refl Hid) in Hreq. discriminate. }
  split; [done|]. unfold onmessage. by rewrite H.
Qed.

Lemma handleMessage_inert_witness :
  handleMessage (Thrown "Unexpected token") awaiting_Y = Done awaiting_Y /\
  handleMessage (Normal (result_frame "Z" (JString "pong"))) awaiting_Y
    = Done awaiting_Y /\
  handleMessage (Normal JNull) awaiting_Y = Done awaiting_Y.
Proof.
  split; [|split].
  - apply (handleMessage_inert (Thrown "Unexpected token") awaiting_Y). left. eauto.
  - apply (handleMessage_inert (Normal (result_frame "Z" (JString "pong"))) awaiting_Y).
    right. intros response k [= <-] [= <-]. vm_compute. reflexivity.
  - apply (handleMessage_inert (Normal JNull) awaiting_Y).
    right. intros response k [= <-] Hid. discriminate Hid.
Defined.

(** C6, as amended. When the write throws, the request's timer is cleared
    (the timers are those of before the call), the entry under the
    request's id is removed, the call is rejected with a CONNECTION error
    and nothing is transmitted, now or later. The table is the one of
    before the call provided the id was not already pending. *)
Theorem send_failure_rejects request uuid m st :
  reachable st -> isConnected st = true ->
  let k := requestId request uuid in
  let st' := sendRequest request uuid (Some m) st in
  pendingRequests st' = delete k (pendingRequests st) /\
  (pendingRequests st !! k = None -> pendingRequests st' = pendingRequests st) /\
  timers st' = timers st /\
  calls st' !! next_call st =
    Some (Rejected (error CONNECTION ("Send failed: " ++ m))) /\
  wire st' = wire st /\ ws st' = ws st.
Proof.
  intros Hreach Hc k st'.
  pose proof (reachable_Inv st Hreach) as HI.
  destruct (sendRequest_connected request uuid (Some m) st Hc) as (E & s & Hws & _).
  unfold st'. rewrite E, (sendRequest_executor_connected _ _ _ _ s Hws Hc).
  fold k. unfold reject. rewrite settle_eq. simpl.
  assert (Hp : calls st !! next_call st = None).
  { destruct (calls st !! next_call st) eqn:Hp; [|done].
    apply (inv_calls st HI) in Hp. lia. }
  assert (Ht : timers st !! next_timer st = None).
  { destruct (timers st !! next_timer st) eqn:Ht; [|done].
    apply (inv_timers st HI) in Ht. lia. }
  rewrite Hp, lookup_insert_eq, !delete_insert_eq, (delete_id _ _ Ht).
  split; [done|]. split; [apply delete_id|]. done.
Qed.

Lemma send_failure_rejects_witness :
  pendingRequests (sendRequest request_Y "u-2" (Some "socket closed") connected) =
    pendingRequests connected /\
  timers (sendRequest request_Y "u-2" (Some "socket closed") connected) =
    timers connected /\
  calls (sendRequest request_Y "u-2" (Some "socket closed") connected) !! 0 =
    Some (Rejected (error CONNECTION "Send failed: socket closed")) /\
  wire (sendRequest request_Y "u-2" (Some "socket closed") connected) = wire connected.
Proof.
  destruct (send_failure_rejects request_Y "u-2" "socket closed" connected
              reachable_connected) as (_ & H2 & H3 & H4 & H5 & _);
    [vm_compute; reflexivity|].
  refine (conj (H2 _) (conj H3 (conj H4 H5))). vm_compute. reflexivity.
Defined.

(** C6, as stated, fails: a request sent under the id "Y" while another
    request is pending under "Y" has replaced that entry by the time the
    write throws, and the table is left without it. *)
Lemma send_failure_drops_older_entry :
  pendingRequests awaiting_Y !! "Y" = Some {| promise := 0; timeout := 1 |} /\
  pendingRequests (sendRequest request_Y "u-2" (Some "socket closed") awaiting_Y) !! "Y"
    = None /\
  pendingRequests (sendRequest request_Y "u-2" (Some "socket closed") awaiting_Y)
    <> pendingRequests awaiting_Y.
Proof.
  split; [|split]; [vm_compute; reflexivity | vm_compute; reflexivity |].
  intros H. apply (f_equal (fun m => m !! "Y")) in H. vm_compute in H. discriminate H.
Qed.

(** C9. In every reachable state a client without a socket has an empty
    table; equivalently an entry exists only while a socket does; and
    every step of the event loop (a method call, a socket event, a timer
    firing) leads to such a state again. *)
Theorem pending_only_with_socket st :
  reachable st ->
  (ws st = None -> pendingRequests st = ∅) /\
  (forall k r, pendingRequests st !! k = Some r -> exists s, ws st = Some s) /\
  (forall ev, ws (step ev st) = None -> pendingRequests (step ev st) = ∅).
Proof.
  intros Hreach. pose proof (reachable_Inv st Hreach) as HI.
  split; [apply (inv_ws st HI)|]. split.
  - intros k r Hk. destruct (ws st) as [s|] eqn:Hws; [eauto|].
    rewrite (inv_ws st HI Hws), lookup_empty in Hk. discriminate.
  - intros ev. apply (inv_ws _ (Inv_step ev st HI)).
Qed.

Lemma pending_only_with_socket_witness :
  ws (step CallStop awaiting_Y) = None /\
  pendingRequests (step CallStop awaiting_Y) = ∅.
Proof.
  split; [vm_compute; reflexivity|].
  apply (proj2 (proj2 (pending_only_with_socket awaiting_Y reachable_awaiting_Y))).
  vm_compute. reflexivity.
Defined.

(** C10. A request whose id is the empty string is registered and sent
    under the generated identifier, not under the empty string; and a
    response whose id is the empty string completes nothing, in any
    state. *)
Theorem empty_id_replaced request uuid st :
  id request = Some "" -> uuid <> "" -> isConnected st = true ->
  let st' := sendRequest request uuid None st in
  requestId request uuid = uuid /\
  requestId request uuid <> "" /\
  pendingRequests st' =
    <[uuid := {| promise := next_call st; timeout := next_timer st |}]>
      (pendingRequests st) /\
  pendingRequests st' !! "" = pendingRequests st !! "" /\
  (exists s, ws st = Some s /\
     wire st' = WsSend (socket s)
                  {| frame_id := uuid; frame_method := method request;
                     frame_params := params request |} :: wire st) /\
  forall response st0,
    prop response "id" = Normal (JString "") ->
    handleMessage (Normal response) st0 = Done st0.
Proof.
  intros Hid Huuid Hc st'.
  assert (Hk : requestId request uuid = uuid).
  { unfold requestId. rewrite Hid. reflexivity. }
  destruct (sendRequest_connected request uuid None st Hc) as (E & s & Hws & _).
  unfold st'. rewrite E, (sendRequest_executor_connected _ _ _ _ s Hws Hc), Hk.
  simpl. split; [done|]. split; [done|]. split; [done|].
  split; [by rewrite lookup_insert_ne|]. split; [eauto|].
  intros response st0 Hid0.
  unfold handleMessage, handleMessage_try, eval. rewrite Hid0. reflexivity.
Qed.

Lemma empty_id_replaced_witness :
  requestId request_anonymous "u-7" = "u-7" /\
  pendingRequests (sendRequest request_anonymous "u-7" None connected) !! "" = None /\
  handleMessage (Normal (result_frame "" (JString "pong"))) awaiting_Y = Done awaiting_Y.
Proof.
  destruct (empty_id_replaced request_anonymous "u-7" connected)
    as (H1 & _ & _ & H4 & _ & H6);
    [reflexivity | discriminate | vm_compute; reflexivity |].
  split; [exact H1|]. split.
  - rewrite H4. vm_compute. reflexivity.
  - apply H6. reflexivity.
Defined.

End ClientFacts.

(** * More on port resolution *)

Module PortMore.
Import Port PortFacts.

Lemma getPlatformSpecificPort_darwin (p : Process) :
  platform p = "darwin" -> getPlatformSpecificPort p = getUnityPortFromMacOS p.
Proof. intros Hp. unfold getPlatformSpecificPort. rewrite Hp. reflexivity. Qed.

Lemma getPlatformSpecificPort_unix (p : Process) :
  platform p <> "win32" -> platform p <> "darwin" ->
  getPlatformSpecificPort p = getUnityPortFromUnixRegistry p.
Proof.
  intros Hw Hd. unfold getPlatformSpecificPort.
  destruct (String.eqb_spec (platform p) "win32"); [contradiction|].
  destruct (String.eqb_spec (platform p) "darwin"); [contradiction|].
  reflexivity.
Qed.

(** X1. The macOS probe never throws. A non-empty answer of launchd is
    returned, trimmed, and the shell profiles are not consulted; an empty
    answer of launchd gives the trimmed output of the shell-profile
    command, or the empty string when that command fails; and when
    [launchctl] itself fails the result is the empty string, the shell
    profiles are skipped, and without an override the port is the
    default. *)
Theorem getUnityPortFromMacOS_cases (p : Process) :
  (forall out, execSync p launchctl_command = Stdout out -> trim out <> "" ->
     getUnityPortFromMacOS p = Normal (trim out)) /\
  (forall out out', execSync p launchctl_command = Stdout out -> trim out = "" ->
     execSync p shell_profile_command = Stdout out' ->
     getUnityPortFromMacOS p = Normal (trim out')) /\
  (forall out m, execSync p launchctl_command = Stdout out -> trim out = "" ->
     execSync p shell_profile_command = ExecError m ->
     getUnityPortFromMacOS p = Normal "") /\
  (forall m, execSync p launchctl_command = ExecError m ->
     getUnityPortFromMacOS p = Normal "" /\
     (platform p = "darwin" -> truthy_opt (env_UNITY_PORT p) = false ->
      determinePort p = Normal DEFAULT_PORT)).
Proof.
  unfold getUnityPortFromMacOS, exec. split; [|split; [|split]].
  - intros out Hl Hne. rewrite Hl. simpl.
    rewrite truthy_string_true by assumption. reflexivity.
  - intros out out' Hl He Hs. rewrite Hl. simpl. rewrite He, Hs. reflexivity.
  - intros out m Hl He Hs. rewrite Hl. simpl. rewrite He, Hs. reflexivity.
  - intros m Hl. rewrite Hl. simpl. split; [reflexivity|].
    intros Hp Hno. rewrite determinePort_no_override by assumption.
    unfold platform_value. rewrite getPlatformSpecificPort_darwin by assumption.
    unfold getUnityPortFromMacOS, exec. rewrite Hl. reflexivity.
Qed.

Lemma getUnityPortFromMacOS_cases_witness :
  getUnityPortFromMacOS (macos (Stdout (line "9001")) (Stdout "9002")) = Normal "9001" /\
  getUnityPortFromMacOS (macos (Stdout (line "")) (Stdout (line " 9002"))) = Normal "9002" /\
  getUnityPortFromMacOS (macos (Stdout "") (ExecError "exit 1")) = Normal "" /\
  determinePort (macos (ExecError "exit 1") (Stdout "9002")) = Normal 8090%float.
Proof.
  split; [|split; [|split]].
  - apply (proj1 (getUnityPortFromMacOS_cases _) (line "9001")); [reflexivity | discriminate].
  - apply (proj1 (proj2 (getUnityPortFromMacOS_cases _)) (line "") (line " 9002")); reflexivity.
  - apply (proj1 (proj2 (proj2 (getUnityPortFromMacOS_cases _))) "" "exit 1");
      reflexivity.
  - apply (proj2 (proj2 (proj2 (getUnityPortFromMacOS_cases _))) "exit 1");
      reflexivity.
Defined.

(** X2. On a platform other than win32 and darwin, if the child process
    of [printenv] sees the environment of the process itself, the platform
    step never yields a value: the port is decided by
    [process.env.UNITY_PORT] alone ([parseInt] of it when non-empty, 8090
    otherwise). *)
Theorem determinePort_unix_inherits (p : Process) :
  platform p <> "win32" -> platform p <> "darwin" -> printenv_inherits p ->
  (truthy_opt (env_UNITY_PORT p) = false -> platform_value p = None) /\
  determinePort p =
    Normal (match env_UNITY_PORT p with
            | Some v => if truthy_string v then parseInt v else DEFAULT_PORT
            | None => DEFAULT_PORT
            end).
Proof.
  intros Hw Hd Hinh.
  assert (Hnone : truthy_opt (env_UNITY_PORT p) = false -> platform_value p = None).
  { intros Hno. unfold platform_value.
    rewrite getPlatformSpecificPort_unix by assumption.
    unfold getUnityPortFromUnixRegistry, exec. rewrite Hinh.
    destruct (env_UNITY_PORT p) as [v|]; [|reflexivity].
    simpl in Hno. apply truthy_string_false in Hno. subst v. reflexivity. }
  split; [exact Hnone|].
  destruct (env_UNITY_PORT p) as [v|] eqn:Hv.
  - destruct (truthy_string v) eqn:Ht.
    + unfold determinePort. rewrite Hv, Ht. reflexivity.
    + rewrite determinePort_no_override by (rewrite Hv; exact Ht).
      rewrite Hnone by exact Ht. reflexivity.
  - rewrite determinePort_no_override by (rewrite Hv; reflexivity).
    rewrite Hnone by reflexivity. reflexivity.
Qed.

Lemma determinePort_unix_inherits_witness :
  platform_value (freebsd_inheriting None) = None /\
  determinePort (freebsd_inheriting (Some "")) = Normal 8090%float /\
  determinePort (freebsd_inheriting (Some "9100")) = Normal 9100%float.
Proof.
  split; [|split].
  - apply (determinePort_unix_inherits (freebsd_inheriting None));
      [discriminate | discriminate | reflexivity | reflexivity].
  - apply (determinePort_unix_inherits (freebsd_inheriting (Some "")));
      [discriminate | discriminate | reflexivity].
  - apply (determinePort_unix_inherits (freebsd_inheriting (Some "9100")));
      [discriminate | discriminate | reflexivity].
Defined.

End PortMore.

(** * More on the client *)

Module ClientMore.
Import Client ClientFacts.

(** ** The second invariant *)

Lemma Inv2_init p : Inv2 (init p).
Proof. split; simpl; intros; try done; by rewrite ?lookup_empty in *. Qed.

(** Entries and timers only removed, counters and clock only advanced, the
    socket kept or dropped, connect promises settled only when no timer
    and no handshake waits for them. *)
Lemma Inv2_shrink st st' :
  Inv2 st ->
  (forall k r, pendingRequests st' !! k = Some r ->
     pendingRequests st !! k = Some r /\
     timers st' !! timeout r = timers st !! timeout r) ->
  (forall t tm, timers st' !! t = Some tm -> timers st !! t = Some tm) ->
  (clock st <= clock st')%Z ->
  next_socket st <= next_socket st' ->
  next_timer st <= next_timer st' ->
  next_connect st <= next_connect st' ->
  (forall s', ws st' = Some s' ->
     exists s, ws st = Some s /\ socket s' = socket s /\
               connectionTimeout s' = connectionTimeout s /\
               connectPromise s' = connectPromise s /\
               (readyState s' = CONNECTING -> readyState s = CONNECTING)) ->
  (forall p x, connects st' !! p = Some x ->
     connects st !! p = Some x \/
     (p < next_connect st' /\
      (forall t tm, timers st' !! t = Some tm -> callback tm <> ConnectionTimeout p) /\
      (forall s', ws st' = Some s' -> readyState s' = CONNECTING ->
                  connectPromise s' <> p))) ->
  Inv2 st'.
Proof.
  intros [J1 J2 J3 J4 J5 J6 J7] Hpend Htm Hclock Hns Hnt Hnc Hws Hconn.
  split.
  - intros k r Hk. destruct (Hpend k r Hk) as [Hold Heq].
    destruct (J1 k r Hold) as (tm & Ht & Hcb). exists tm. by rewrite Heq.
  - intros t tm Ht. apply Htm in Ht. apply J2 in Ht. lia.
  - intros s' Hs' Hc. destruct (Hws s' Hs') as (s & Hs & _ & _ & HcP & Hst).
    destruct (J3 s Hs (Hst Hc)) as [Hempty Hun]. split.
    + apply map_eq. intros k. rewrite lookup_empty.
      destruct (pendingRequests st' !! k) as [r|] eqn:Hk; [|done].
      destruct (Hpend k r Hk) as [Hold _]. by rewrite Hempty, lookup_empty in Hold.
    + destruct (connects st' !! connectPromise s') as [x|] eqn:Hx; [|done].
      destruct (Hconn _ x Hx) as [Hold | (_ & _ & Hne)].
      * rewrite HcP in Hold. congruence.
      * exfalso. by apply (Hne s' Hs' Hc).
  - intros s' Hs'. destruct (Hws s' Hs') as (s & Hs & E1 & E2 & E3 & _).
    destruct (J4 s Hs) as (A & B & C & D). rewrite E1, E2, E3.
    repeat split; try lia. intros tm Ht. apply D. by apply Htm.
  - intros p x Hx. destruct (Hconn p x Hx) as [Hold | (Hlt & _)]; [|done].
    apply J5 in Hold. lia.
  - intros t tm p Ht Hcb. pose proof (Htm t tm Ht) as Hold.
    destruct (J6 t tm p Hold Hcb) as (A & B & C). split; [lia|]. split.
    + destruct (connects st' !! p) as [x|] eqn:Hx; [|done].
      destruct (Hconn p x Hx) as [Hc | (_ & Hno & _)]; [congruence|].
      exfalso. by apply (Hno t tm Ht).
    + intros s' Hs' HcP. destruct (Hws s' Hs') as (s & Hs & _ & E2 & E3 & _).
      rewrite E2. apply (C s Hs). congruence.
  - intros t1 t2 tm1 tm2 p H1 H2. apply J7; by apply Htm.
Qed.

(** ** How the methods act on each field *)

Lemma settle_set_connects p x m n st :
  settle p x (set_connects m n st) = set_connects m n (settle p x st).
Proof. unfold settle. simpl. destruct (calls st !! p); reflexivity. Qed.

Lemma foldl_reject_entry_set_connects m n l st :
  foldl reject_entry (set_connects m n st) l =
    set_connects m n (foldl reject_entry st l).
Proof.
  revert st. induction l as [|e l IH]; intros st; simpl; [done|].
  rewrite <- IH. f_equal. unfold reject_entry, reject. simpl.
  rewrite (settle_set_connects _ _ m n (clearTimeout (timeout e.2) st)). reflexivity.
Qed.

Lemma disconnect_set_connects m n st :
  disconnect (set_connects m n st) = set_connects m n (disconnect st).
Proof.
  unfold disconnect. simpl. destruct (ws st) as [s|]; [|done].
  destruct (readyState s); simpl; rewrite <- foldl_reject_entry_set_connects;
    reflexivity.
Qed.

(** The fields [disconnect] never touches. *)
Lemma disconnect_frame st :
  port (disconnect st) = port st /\ clock (disconnect st) = clock st /\
  next_timer (disconnect st) = next_timer st /\
  next_call (disconnect st) = next_call st /\
  connects (disconnect st) = connects st /\
  next_connect (disconnect st) = next_connect st /\
  next_socket (disconnect st) = next_socket st /\
  ws (disconnect st) = None /\
  wire (disconnect st) =
    (match ws st with Some s => teardown s | None => [] end ++ wire st)%list /\
  (forall t tm, timers (disconnect st) !! t = Some tm -> timers st !! t = Some tm).
Proof.
  destruct (ws st) as [s|] eqn:Hws.
  - destruct (disconnect_open st s Hws)
      as (D1 & D2 & D3 & D4 & D5 & D6 & D7 & D8 & D9 & _ & D11 & _).
    repeat split; try done. intros t tm. rewrite D11. by destruct (decide _).
  - rewrite (disconnect_closed st Hws). repeat split; done.
Qed.

(** [connect] on a client that is not connected: whatever socket it holds
    is dropped by [disconnect] and a new one is created. *)
Lemma connect_fresh c st :
  isConnected st = false ->
  let st' := (connect c st).2 in
  let d := disconnect st in
  ws st' = Some {| socket := next_socket st; readyState := CONNECTING;
                   connectionTimeout := next_timer st;
                   connectPromise := next_connect st |} /\
  pendingRequests st' = pendingRequests d /\
  calls st' = calls d /\ next_call st' = next_call st /\
  timers st' =
    <[next_timer st := {| set_at := clock st; delay := REQUEST_TIMEOUT;
                          callback := ConnectionTimeout (next_connect st) |}]>
      (timers d) /\
  next_timer st' = S (next_timer st) /\
  connects st' = connects st /\ next_connect st' = S (next_connect st) /\
  next_socket st' = S (next_socket st) /\
  wire st' = WsNew (next_socket st) (port st) (default "" c) :: wire d /\
  clock st' = clock st /\ port st' = port st.
Proof.
  intros Hc. unfold connect.
  change (isConnected (set_connects ?m ?n ?x)) with (isConnected x). rewrite Hc.
  rewrite disconnect_set_connects.
  destruct (disconnect_frame st) as (F1 & F2 & F3 & F4 & F5 & F6 & F7 & _).
  simpl. rewrite F1, F2, F3, F4, F7. repeat split.
Qed.

(** [connect] on a connected client. *)
Lemma connect_connected c st :
  isConnected st = true ->
  (connect c st).1 = next_connect st /\
  (connect c st).2 =
    settle_connect (next_connect st) (Resolved JUndefined)
      (set_connects (connects st) (S (next_connect st)) st).
Proof.
  intros Hc. unfold connect.
  change (isConnected (set_connects ?m ?n ?x)) with (isConnected x). rewrite Hc.
  split; reflexivity.
Qed.

Lemma isConnected_spec st :
  isConnected st = true <-> exists s, ws st = Some s /\ readyState s = OPEN.
Proof.
  unfold isConnected. split.
  - destruct (ws st) as [s|]; [|discriminate].
    destruct (readyState s) eqn:Hr; try discriminate. eauto.
  - intros (s & -> & ->). reflexivity.
Qed.

(** The socket is the one of before. *)
Lemma ws_kept st st' :
  ws st' = ws st ->
  forall s', ws st' = Some s' ->
    exists s, ws st = Some s /\ socket s' = socket s /\
              connectionTimeout s' = connectionTimeout s /\
              connectPromise s' = connectPromise s /\
              (readyState s' = CONNECTING -> readyState s = CONNECTING).
Proof. intros E s' Hs'. exists s'. rewrite <- E. repeat split; done. Qed.

Lemma Inv2_same st st' :
  ws st' = ws st -> pendingRequests st' = pendingRequests st ->
  timers st' = timers st -> next_timer st' = next_timer st ->
  connects st' = connects st -> next_connect st' = next_connect st ->
  next_socket st' = next_socket st -> clock st' = clock st ->
  Inv2 st -> Inv2 st'.
Proof.
  intros E1 E2 E3 E4 E5 E6 E7 E8 [J1 J2 J3 J4 J5 J6 J7].
  split; rewrite ?E1, ?E2, ?E3, ?E4, ?E5, ?E6, ?E7, ?E8; assumption.
Qed.

Lemma Inv2_settle p x st : Inv2 st -> Inv2 (settle p x st).
Proof. rewrite settle_eq. by apply Inv2_same. Qed.

Lemma Inv2_disconnect st : Inv2 st -> Inv2 (disconnect st).
Proof.
  intros HJ. destruct (ws st) as [s|] eqn:Hws.
  2: { by rewrite disconnect_closed. }
  destruct (disconnect_open st s Hws)
    as (_ & D2 & D3 & D4 & _ & D6 & D7 & D8 & _ & D10 & _ & _).
  destruct (disconnect_frame st) as (_ & _ & _ & _ & _ & _ & _ & _ & _ & Dt).
  apply (Inv2_shrink st); try done; try lia.
  - rewrite D10. intros k r. by rewrite lookup_empty.
  - rewrite D2. discriminate.
  - rewrite D6. auto.
Qed.

(** An entry's timer is a request timer, so clearing another kind of timer
    leaves the entries with theirs. *)
Lemma Inv2_clearTimeout t st :
  Inv2 st ->
  (forall k r, pendingRequests st !! k = Some r -> timeout r <> t) ->
  Inv2 (clearTimeout t st).
Proof.
  intros HJ Hne. apply (Inv2_shrink st); simpl; try done.
  - intros k r Hk. split; [done|]. rewrite lookup_delete_ne; [done|].
    intros E. by apply (Hne k r Hk).
  - intros t' tm. rewrite lookup_delete. destruct (decide _); [done | auto].
  - by apply ws_kept.
  - auto.
Qed.

Lemma Inv2_settle_connect p x st :
  Inv2 st -> p < next_connect st ->
  (forall t tm, timers st !! t = Some tm -> callback tm <> ConnectionTimeout p) ->
  (forall s, ws st = Some s -> readyState s = CONNECTING -> connectPromise s <> p) ->
  Inv2 (settle_connect p x st).
Proof.
  intros HJ Hp Htm Hs. rewrite settle_connect_eq.
  apply (Inv2_shrink st); simpl; try done.
  - by apply ws_kept.
  - intros q y. destruct (connects st !! p) eqn:Hcp; [auto|].
    rewrite lookup_insert. destruct (decide _) as [<-|]; [|auto].
    intros _. right. auto.
Qed.

(** Distinct entries have distinct timers. *)
Lemma entry_timers_distinct st k k' r r' :
  Inv2 st -> pendingRequests st !! k = Some r -> pendingRequests st !! k' = Some r' ->
  timeout r = timeout r' -> k = k'.
Proof.
  intros HJ Hk Hk' E.
  destruct (inv2_entry_timer st HJ k r Hk) as (tm & Ht & Hcb).
  destruct (inv2_entry_timer st HJ k' r' Hk') as (tm' & Ht' & Hcb').
  rewrite E in Ht. congruence.
Qed.

Lemma Inv2_complete k request x st :
  Inv2 st -> pendingRequests st !! k = Some request ->
  Inv2 (complete k request x st).
Proof.
  intros HJ Hk. unfold complete. apply Inv2_settle.
  apply (Inv2_shrink st); simpl; try done.
  - intros k' r'. rewrite lookup_delete. destruct (decide (k = k')) as [|Hne]; [done|].
    intros Hk'. split; [done|]. rewrite lookup_delete_ne; [done|].
    intros E. apply Hne. by apply (entry_timers_distinct st k k' request r').
  - intros t' tm. rewrite lookup_delete. destruct (decide _); [done | auto].
  - by apply ws_kept.
  - auto.
Qed.

Lemma Inv2_handleMessage parsed st :
  Inv2 st -> forall st', handleMessage parsed st = Done st' -> Inv2 st'.
Proof.
  intros HJ st'.
  destruct (handleMessage_cases parsed st)
    as [-> | (response & k & request & -> & Hid & Hk & Hreq)].
  - by intros [= <-].
  - rewrite (handleMessage_matched _ _ _ _ Hid Hk Hreq). intros [= <-].
    by apply Inv2_complete.
Qed.

Lemma Inv2_connect c st : Inv st -> Inv2 st -> Inv2 (connect c st).2.
Proof.
  intros HI HJ. destruct (isConnected st) eqn:Hc.
  - rewrite (proj2 (connect_connected c st Hc)).
    assert (HJ1 : Inv2 (set_connects (connects st) (S (next_connect st)) st)).
    { apply (Inv2_shrink st); simpl; try done; try lia; [by apply ws_kept | auto]. }
    apply Inv2_settle_connect; simpl; try done; try lia.
    + intros t tm Ht Hcb.
      destruct (inv2_connection_timers st HJ t tm _ Ht Hcb) as [Hlt _]. lia.
    + intros s Hs _ E. destruct (inv2_socket st HJ s Hs) as (_ & _ & Hlt & _). lia.
  - destruct (connect_fresh c st Hc)
      as (W & P & _ & _ & T & NT & C & NC & NS & _ & CL & _).
    destruct (disconnect_frame st) as (_ & _ & _ & _ & _ & _ & _ & Dw & _ & Dt).
    assert (Hempty : pendingRequests (disconnect st) = ∅).
    { apply (inv_ws _ (Inv_disconnect st HI) Dw). }
    assert (Hfree : connects st !! next_connect st = None).
    { destruct (connects st !! next_connect st) eqn:E; [|done].
      apply (inv2_connects st HJ) in E. lia. }
    split.
    + rewrite P, Hempty. intros k r. by rewrite lookup_empty.
    + intros t tm. rewrite T, CL, lookup_insert.
      destruct (decide _) as [<-|].
      * intros [= <-]. simpl. lia.
      * intros Ht. apply Dt in Ht. by apply (inv2_set_at st HJ t tm).
    + intros s. rewrite W. intros [= <-] _. simpl. rewrite P, C. done.
    + intros s. rewrite W. intros [= <-]. simpl. rewrite NS, NT, NC, T.
      repeat split; try lia. intros tm. rewrite lookup_insert_eq. by intros [= <-].
    + intros p x. rewrite C, NC. intros Hp. apply (inv2_connects st HJ) in Hp. lia.
    + intros t tm p. rewrite T, NC, C, W, lookup_insert.
      destruct (decide _) as [<-|].
      * intros [= <-]. simpl. intros [= <-]. repeat split; try done; try lia.
        by intros s [= <-].
      * intros Ht Hcb. apply Dt in Ht.
        destruct (inv2_connection_timers st HJ t tm p Ht Hcb) as (A & B & _).
        repeat split; try done; try lia. intros s [= <-]. simpl. lia.
    + intros t1 t2 tm1 tm2 p. rewrite T, !lookup_insert.
      destruct (decide (next_timer st = t1)) as [<-|];
        destruct (decide (next_timer st = t2)) as [<-|]; try done.
      * intros [= <-] H2 [= <-] Hcb. apply Dt in H2.
        destruct (inv2_connection_timers st HJ _ _ _ H2 Hcb) as (A & _). lia.
      * intros H1 [= <-] Hcb [= <-]. apply Dt in H1.
        destruct (inv2_connection_timers st HJ _ _ _ H1 Hcb) as (A & _). lia.
      * intros H1 H2. apply Dt in H1, H2. by apply (inv2_connection_inj st HJ).
Qed.

Lemma Inv2_sendRequest_executor request uuid send_error st :
  Inv st -> Inv2 st -> Inv2 (sendRequest_executor request uuid send_error st).
Proof.
  intros HI HJ.
  assert (Hfail : forall e,
    Inv2 (reject (next_call st) e (set_calls (calls st) (S (next_call st)) st))).
  { intros e. apply Inv2_settle. by apply (Inv2_same st). }
  destruct (isConnected st) eqn:Hc.
  2: { unfold sendRequest_executor. simpl.
       change (isConnected (set_calls ?m ?n ?x)) with (isConnected x). rewrite Hc.
       destruct (ws st); apply Hfail. }
  destruct (proj1 (isConnected_spec st) Hc) as (s & Hws & Hopen).
  rewrite (sendRequest_executor_connected _ _ _ _ s Hws Hc).
  set (k := requestId request uuid).
  assert (Hlt : forall t tm, timers st !! t = Some tm -> t <> next_timer st).
  { intros t tm Ht. destruct (inv_timers st HI t tm Ht). lia. }
  assert (Hentry : forall k' r, pendingRequests st !! k' = Some r ->
                                timeout r <> next_timer st).
  { intros k' r Hk'. destruct (inv2_entry_timer st HJ k' r Hk') as (tm & Ht & _).
    by apply (Hlt _ tm). }
  destruct send_error as [m|].
  - apply Inv2_settle. apply (Inv2_shrink st); simpl; try done; try lia.
    + intros k' r. rewrite lookup_delete. destruct (decide _); [done|].
      rewrite lookup_insert_ne by done. intros Hk'. split; [done|].
      pose proof (Hentry k' r Hk').
      rewrite lookup_delete_ne, lookup_insert_ne by done. done.
    + intros t tm. rewrite lookup_delete. destruct (decide _); [done|].
      by rewrite lookup_insert_ne.
    + by apply ws_kept.
    + auto.
  - unfold transport. split; simpl.
    + intros k' r. rewrite lookup_insert. destruct (decide _) as [<-|].
      * intros [= <-]. simpl. rewrite lookup_insert_eq. eauto.
      * intros Hk'. pose proof (Hentry k' r Hk').
        rewrite lookup_insert_ne by done. by apply (inv2_entry_timer st HJ).
    + intros t tm. rewrite lookup_insert. destruct (decide _) as [<-|].
      * intros [= <-]. simpl. lia.
      * apply (inv2_set_at st HJ).
    + rewrite Hws. intros s' [= <-] Hcon. congruence.
    + rewrite Hws. intros s' [= <-].
      destruct (inv2_socket st HJ s Hws) as (A & B & C & D).
      repeat split; try lia. intros tm. rewrite lookup_insert_ne by lia. apply D.
    + apply (inv2_connects st HJ).
    + intros t tm p. rewrite lookup_insert. destruct (decide _) as [<-|].
      * intros [= <-]. simpl. discriminate.
      * apply (inv2_connection_timers st HJ).
    + intros t1 t2 tm1 tm2 p. rewrite !lookup_insert.
      destruct (decide (next_timer st = t1)) as [<-|];
        destruct (decide (next_timer st = t2)) as [<-|]; try done.
      * intros [= <-] _ Hcb. discriminate Hcb.
      * intros _ [= <-] _ Hcb. discriminate Hcb.
      * apply (inv2_connection_inj st HJ).
Qed.

Lemma Inv2_reconnect st : Inv st -> Inv2 st -> Inv2 (reconnect st).
Proof.
  intros HI HJ. unfold reconnect.
  apply Inv2_connect; [by apply Inv_disconnect | by apply Inv2_disconnect].
Qed.

Lemma Inv2_fire t st : Inv st -> Inv2 st -> Inv2 (fire t st).
Proof.
  intros HI HJ. unfold fire.
  destruct (timers st !! t) as [tm|] eqn:Ht; [|done].
  destruct (_ <=? _)%Z; [|done].
  destruct (callback tm) as [k p|p] eqn:Hcb; simpl.
  - destruct (inv_request_timers st HI t tm k p Ht Hcb) as [Hp Hkey].
    unfold request_timeout. simpl.
    destruct (pendingRequests st !! k) as [r|] eqn:Hk.
    + apply Inv2_reconnect.
      * unfold reject.
        change (pendingRequests st) with (pendingRequests (clearTimeout t st)).
        apply Inv_complete; [by apply Inv_clearTimeout | exact Hkey | exact Hp].
      * apply Inv2_settle. apply (Inv2_shrink st); simpl; try done.
        -- intros k' r'. rewrite lookup_delete.
           destruct (decide (k = k')) as [|Hne]; [done|]. intros Hk'. split; [done|].
           rewrite lookup_delete_ne; [done|]. intros E.
           destruct (inv2_entry_timer st HJ k' r' Hk') as (tm' & Ht' & Hcb').
           rewrite <- E in Ht'. congruence.
        -- intros t' tm'. rewrite lookup_delete. destruct (decide _); [done | auto].
        -- by apply ws_kept.
        -- auto.
    + apply Inv2_reconnect; [by apply Inv_clearTimeout|].
      apply Inv2_clearTimeout; [done|]. intros k' r' Hk' E.
      destruct (inv2_entry_timer st HJ k' r' Hk') as (tm' & Ht' & Hcb').
      rewrite E in Ht'. congruence.
  - assert (HJ1 : Inv2 (clearTimeout t st)).
    { apply Inv2_clearTimeout; [done|]. intros k' r' Hk' E.
      destruct (inv2_entry_timer st HJ k' r' Hk') as (tm' & Ht' & Hcb').
      rewrite E in Ht'. congruence. }
    unfold connection_timeout. simpl.
    destruct (ws st) as [s|] eqn:Hws; [|done].
    destruct (readyState s) eqn:Hr; try done.
    destruct (inv2_connection_timers st HJ t tm p Ht Hcb) as (Hp & _ & _).
    destruct (disconnect_frame (clearTimeout t st))
      as (_ & _ & _ & _ & _ & F6 & _ & Dw & _ & Dt).
    apply Inv2_settle_connect.
    + by apply Inv2_disconnect.
    + by rewrite F6.
    + intros t' tm' Ht' Hcb'. apply Dt in Ht'. simpl in Ht'.
      rewrite lookup_delete in Ht'. destruct (decide (t = t')) as [|Hne]; [done|].
      apply Hne. by apply (inv2_connection_inj st HJ t t' tm tm' p).
    + rewrite Dw. discriminate.
Qed.

Lemma Inv2_set_readyState r s st :
  ws st = Some s -> r <> CONNECTING -> Inv2 st ->
  Inv2 (set_ws (Some (set_readyState r s)) st).
Proof.
  intros Hws Hr HJ. apply (Inv2_shrink st); simpl; try done.
  - intros s' [= <-]. exists s. repeat split; done.
  - auto.
Qed.

Lemma Inv2_step ev st : Inv st -> Inv2 st -> Inv2 (step ev st).
Proof.
  intros HI HJ. destruct ev; simpl.
  - by apply Inv2_connect.
  - by apply Inv2_disconnect.
  - by apply Inv2_disconnect.
  - unfold sendRequest. destruct (isConnected st).
    + by apply Inv2_sendRequest_executor.
    + by apply Inv2_connect.
  - by apply Inv2_sendRequest_executor.
  - destruct (ws st) as [s|] eqn:Hws; [|done].
    destruct (readyState s) eqn:Hr; try done.
    destruct (inv2_socket st HJ s Hws) as (_ & _ & HcP & Hcb).
    destruct (inv2_handshake st HJ s Hws Hr) as [Hempty _].
    unfold onopen. rewrite settle_connect_eq. simpl.
    apply (Inv2_shrink st); simpl; try done.
    + rewrite Hempty. intros k r. by rewrite lookup_empty.
    + intros t tm. rewrite lookup_delete. destruct (decide _); [done | auto].
    + intros s' [= <-]. exists s. repeat split; done.
    + intros q y. destruct (connects st !! connectPromise s) eqn:Hcp; [auto|].
      rewrite lookup_insert. destruct (decide _) as [<-|]; [|auto].
      intros _. right. split; [done|]. split.
      * intros t tm. rewrite lookup_delete.
        destruct (decide (connectionTimeout s = t)) as [|Hne]; [done|].
        intros Ht Hcb'. apply Hne. symmetry.
        by apply (inv2_connection_timers st HJ t tm _ Ht Hcb').
      * intros s' [= <-]. discriminate.
  - destruct (ws st) as [s|] eqn:Hws; [|done].
    destruct (readyState s); try done; by apply Inv2_set_readyState.
  - destruct (ws st) as [s|] eqn:Hws; [|done].
    unfold onerror. set (e := Rejected _).
    set (Y := settle_connect (connectPromise s) e (clearTimeout (connectionTimeout s) st)).
    assert (HY : ws Y = Some s /\ clock Y = clock st /\
                 next_timer Y = next_timer st /\ next_connect Y = next_connect st /\
                 next_socket Y = next_socket st /\
                 timers Y = delete (connectionTimeout s) (timers st) /\
                 connects Y = match connects st !! connectPromise s with
                              | Some _ => connects st
                              | None => <[connectPromise s := e]> (connects st)
                              end).
    { unfold Y. rewrite settle_connect_eq. simpl. repeat split; done. }
    destruct HY as (Y1 & Y2 & Y3 & Y4 & Y5 & Y6 & Y7).
    destruct (disconnect_open Y s Y1)
      as (_ & D2 & D3 & D4 & _ & D6 & D7 & D8 & _ & D10 & _ & _).
    destruct (disconnect_frame Y) as (_ & _ & _ & _ & _ & _ & _ & _ & _ & Dt).
    destruct (inv2_socket st HJ s Hws) as (_ & _ & HcP & _).
    apply (Inv2_shrink st); try lia.
    + done.
    + rewrite D10. intros k r. by rewrite lookup_empty.
    + intros t tm Ht. apply Dt in Ht. rewrite Y6, lookup_delete in Ht.
      by destruct (decide _).
    + rewrite D2. discriminate.
    + rewrite D6, Y7, D7, Y4, D2. intros q y.
      destruct (connects st !! connectPromise s) eqn:Hcp; [auto|].
      rewrite lookup_insert. destruct (decide _) as [<-|]; [|auto].
      intros _. right. split; [done|]. split; [|discriminate].
      intros t tm Ht Hcb'. apply Dt in Ht. rewrite Y6, lookup_delete in Ht.
      destruct (decide (connectionTimeout s = t)) as [|Hne]; [done|].
      apply Hne. symmetry.
      by apply (inv2_connection_timers st HJ t tm _ Ht Hcb').
  - destruct (ws st) as [s|]; [|done]. unfold onmessage.
    destruct (handleMessage parsed st) as [st'|m st'] eqn:Hh.
    + by apply (Inv2_handleMessage parsed st).
    + unfold handleMessage in Hh. destruct (handleMessage_try parsed st); discriminate.
  - destruct (ws st) as [s|] eqn:Hws; [|done].
    by apply Inv2_disconnect, Inv2_set_readyState.
  - by apply Inv2_fire.
  - destruct (0 <=? ms)%Z eqn:Hms; [|done].
    apply (Inv2_shrink st); simpl; try done.
    + apply Z.leb_le in Hms. lia.
    + by apply ws_kept.
    + auto.
Qed.

Lemma Inv_Inv2_run evs st : Inv st -> Inv2 st -> Inv2 (run evs st).
Proof.
  revert st. induction evs as [|ev evs IH]; intros st HI HJ; simpl; [done|].
  apply IH; [by apply Inv_step | by apply Inv2_step].
Qed.

Lemma reachable_Inv2 st : reachable st -> Inv2 st.
Proof. intros (p & evs & ->). apply Inv_Inv2_run; [apply Inv_init | apply Inv2_init]. Qed.

(** ** The transport log *)

Lemma torn_down_allowed st : Forall (allowed st) (torn_down st).
Proof.
  unfold torn_down, teardown. destruct (ws st) as [s|] eqn:Hws; [|constructor].
  destruct (readyState s); repeat constructor; simpl; eauto.
Qed.

Lemma wire_disconnect st :
  wire (disconnect st) = (torn_down st ++ wire st)%list /\
  port (disconnect st) = port st.
Proof.
  destruct (disconnect_frame st) as (F1 & _ & _ & _ & _ & _ & _ & _ & F9 & _).
  split; done.
Qed.

Lemma wire_connect c st :
  port (connect c st).2 = port st /\
  wire (connect c st).2 =
    if isConnected st then wire st
    else (WsNew (next_socket st) (port st) (default "" c) :: torn_down st ++ wire st)%list.
Proof.
  destruct (isConnected st) eqn:Hc.
  - rewrite (proj2 (connect_connected c st Hc)), settle_connect_eq. split; reflexivity.
  - destruct (connect_fresh c st Hc) as (_ & _ & _ & _ & _ & _ & _ & _ & _ & W & _ & P).
    rewrite W, P, (proj1 (wire_disconnect st)). split; reflexivity.
Qed.

Lemma isConnected_disconnect st : isConnected (disconnect st) = false.
Proof.
  unfold isConnected.
  destruct (disconnect_frame st) as (_ & _ & _ & _ & _ & _ & _ & -> & _). done.
Qed.

Lemma wire_reconnect st :
  port (reconnect st) = port st /\
  wire (reconnect st) =
    (WsNew (next_socket st) (port st) "" :: torn_down st ++ wire st)%list.
Proof.
  unfold reconnect.
  destruct (wire_connect None (disconnect st)) as [P W].
  rewrite isConnected_disconnect in W.
  destruct (disconnect_frame st) as (F1 & _ & _ & _ & _ & _ & F7 & F8 & F9 & _).
  rewrite P, W, F1, F7, F9. unfold torn_down at 1. rewrite F8. split; reflexivity.
Qed.

Lemma sendRequest_executor_not_connected request uuid send_error st :
  isConnected st = false ->
  sendRequest_executor request uuid send_error st =
    reject (next_call st) (error CONNECTION "Not connected to Unity")
      (set_calls (calls st) (S (next_call st)) st).
Proof.
  intros Hc. unfold sendRequest_executor. simpl.
  change (isConnected (set_calls ?m ?n ?x)) with (isConnected x). rewrite Hc.
  by destruct (ws st).
Qed.

Lemma handleMessage_frame parsed st st' :
  handleMessage parsed st = Done st' ->
  wire st' = wire st /\ port st' = port st /\ ws st' = ws st /\
  connects st' = connects st /\ clock st' = clock st.
Proof.
  destruct (handleMessage_cases parsed st)
    as [-> | (response & k & request & -> & Hid & Hk & Hreq)].
  - intros [= <-]. repeat split.
  - rewrite (handleMessage_matched _ _ _ _ Hid Hk Hreq). intros [= <-].
    unfold complete. rewrite settle_eq. repeat split.
Qed.

Lemma handleMessage_done parsed st : exists st', handleMessage parsed st = Done st'.
Proof. unfold handleMessage. destruct (handleMessage_try parsed st); eauto. Qed.

(** What one step adds to the transport log. *)
Lemma step_wire ev st :
  port (step ev st) = port st /\
  exists ops, wire (step ev st) = (ops ++ wire st)%list /\ Forall (allowed st) ops.
Proof.
  assert (Hd : forall x, wire x = wire st -> port x = port st -> ws x = ws st ->
                 port (disconnect x) = port st /\
                 exists ops, wire (disconnect x) = (ops ++ wire st)%list /\
                             Forall (allowed st) ops).
  { intros x Hw Hp Hs. destruct (wire_disconnect x) as [W P].
    rewrite P, W, Hw. split; [done|]. exists (torn_down st). split.
    - unfold torn_down. by rewrite Hs.
    - apply torn_down_allowed. }
  assert (Hc : forall c, port (connect c st).2 = port st /\
                 exists ops, wire (connect c st).2 = (ops ++ wire st)%list /\
                             Forall (allowed st) ops).
  { intros c. destruct (wire_connect c st) as [P W]. split; [done|].
    rewrite W. destruct (isConnected st).
    - exists []. split; [done | constructor].
    - eexists (_ :: torn_down st). split; [reflexivity|].
      constructor; [reflexivity | apply torn_down_allowed]. }
  assert (Hr : forall x, wire x = wire st -> port x = port st -> ws x = ws st ->
                 next_socket x = next_socket st ->
                 port (reconnect x) = port st /\
                 exists ops, wire (reconnect x) = (ops ++ wire st)%list /\
                             Forall (allowed st) ops).
  { intros x Hw Hp Hs Hn. destruct (wire_reconnect x) as [P W].
    rewrite P, W, Hw, Hp, Hn. split; [done|].
    eexists (_ :: torn_down st). split.
    - unfold torn_down. rewrite Hs. reflexivity.
    - constructor; [reflexivity | apply torn_down_allowed]. }
  assert (He : forall request uuid send_error,
                 port (sendRequest_executor request uuid send_error st) = port st /\
                 exists ops, wire (sendRequest_executor request uuid send_error st)
                             = (ops ++ wire st)%list /\ Forall (allowed st) ops).
  { intros request uuid send_error. destruct (isConnected st) eqn:Hcon.
    - destruct (proj1 (isConnected_spec st) Hcon) as (s & Hws & Hopen).
      rewrite (sendRequest_executor_connected _ _ _ _ s Hws Hcon).
      destruct send_error.
      + unfold reject. rewrite settle_eq. split; [done|].
        exists []. split; [done | constructor].
      + split; [done|]. eexists [_]. split; [reflexivity|].
        repeat constructor. simpl. eauto.
    - rewrite sendRequest_executor_not_connected by done.
      unfold reject. rewrite settle_eq. split; [done|].
      exists []. split; [done | constructor]. }
  assert (Hnone : port st = port st /\
                  exists ops, wire st = (ops ++ wire st)%list /\ Forall (allowed st) ops).
  { split; [done|]. exists []. split; [done | constructor]. }
  destruct ev; simpl.
  - apply Hc.
  - by apply Hd.
  - by apply Hd.
  - unfold sendRequest. destruct (isConnected st); [apply He | apply Hc].
  - apply He.
  - destruct (ws st) as [s|]; [|done]. destruct (readyState s); try done.
    unfold onopen. rewrite settle_connect_eq. simpl. apply Hnone.
  - destruct (ws st) as [s|]; [|done]. destruct (readyState s); apply Hnone.
  - destruct (ws st) as [s|] eqn:Hws; [|done]. unfold onerror.
    apply Hd; rewrite settle_connect_eq; done.
  - destruct (ws st) as [s|]; [|done]. unfold onmessage.
    destruct (handleMessage_done parsed st) as [st' Hh]. rewrite Hh.
    destruct (handleMessage_frame _ _ _ Hh) as (-> & -> & _). apply Hnone.
  - destruct (ws st) as [s|] eqn:Hws; [|done]. unfold onclose.
    destruct (wire_disconnect (set_ws (Some (set_readyState CLOSED s)) st)) as [W P].
    rewrite W, P. split; [done|]. exists []. split; [|constructor]. reflexivity.
  - unfold fire. destruct (timers st !! t) as [tm|]; [|done].
    destruct (_ <=? _)%Z; [|done]. destruct (callback tm) as [k p|p]; simpl.
    + unfold request_timeout. simpl. destruct (pendingRequests st !! k).
      * apply Hr; unfold reject; rewrite settle_eq; done.
      * by apply Hr.
    + unfold connection_timeout. simpl. destruct (ws st) as [s|] eqn:Hws; [|done].
      destruct (readyState s); try done.
      rewrite settle_connect_eq. simpl.
      by apply Hd.
  - destruct (0 <=? ms)%Z; apply Hnone.
Qed.

Lemma same_socket_refl st st' : ws st' = ws st -> same_socket st st'.
Proof. intros E s' Hs'. exists s'. by rewrite <- E. Qed.

Lemma same_socket_none st st' : ws st' = None -> same_socket st st'.
Proof. intros E s' Hs'. congruence. Qed.

Lemma step_sockets ev st : step_shape st (step ev st).
Proof.
  assert (Hsame : forall x, wire x = wire st -> ws x = ws st ->
                    next_socket x = next_socket st -> step_shape st x).
  { intros x Hw Hs Hn. left. split; [done|]. split; [by apply same_socket_refl | done]. }
  assert (Hd : forall x, wire x = wire st -> ws x = ws st ->
                 next_socket x = next_socket st -> step_shape st (disconnect x)).
  { intros x Hw Hs Hn. right. right. left.
    destruct (disconnect_frame x) as (_ & _ & _ & _ & _ & _ & F7 & F8 & F9 & _).
    rewrite F9, F8, F7, Hw, Hn. unfold torn_down. rewrite Hs. done. }
  assert (Hr : forall x, wire x = wire st -> ws x = ws st -> port x = port st ->
                 next_socket x = next_socket st -> step_shape st (reconnect x)).
  { intros x Hw Hs Hp Hn. right. right. right.
    destruct (wire_reconnect x) as [_ W].
    unfold reconnect in *.
    destruct (connect_fresh None (disconnect x) (isConnected_disconnect x))
      as (Ws & _ & _ & _ & _ & _ & _ & _ & NS & _).
    destruct (disconnect_frame x) as (_ & _ & _ & _ & _ & _ & F7 & _).
    exists "", {| socket := next_socket st; readyState := CONNECTING;
                  connectionTimeout := next_timer (disconnect x);
                  connectPromise := next_connect (disconnect x) |}.
    rewrite W, Ws, NS, F7, Hw, Hp, Hn. unfold torn_down. rewrite Hs. done. }
  assert (Hc : forall c, step_shape st (connect c st).2).
  { intros c. destruct (isConnected st) eqn:Hcon.
    - rewrite (proj2 (connect_connected c st Hcon)), settle_connect_eq.
      by apply Hsame.
    - right. right. right.
      destruct (connect_fresh c st Hcon)
        as (Ws & _ & _ & _ & _ & _ & _ & _ & NS & Wi & _).
      destruct (wire_disconnect st) as [W _].
      eexists _, _. rewrite Wi, W, Ws, NS. done. }
  assert (He : forall request uuid send_error,
                 step_shape st (sendRequest_executor request uuid send_error st)).
  { intros request uuid send_error. destruct (isConnected st) eqn:Hcon.
    - destruct (proj1 (isConnected_spec st) Hcon) as (s & Hws & Hopen).
      rewrite (sendRequest_executor_connected _ _ _ _ s Hws Hcon).
      destruct send_error.
      + unfold reject. rewrite settle_eq. by apply Hsame.
      + right. left. eexists s, _. repeat split; try done.
        by apply same_socket_refl.
    - rewrite sendRequest_executor_not_connected by done.
      unfold reject. rewrite settle_eq. by apply Hsame. }
  destruct ev; simpl.
  - apply Hc.
  - by apply Hd.
  - by apply Hd.
  - unfold sendRequest. destruct (isConnected st); [apply He | apply Hc].
  - apply He.
  - destruct (ws st) as [s|] eqn:Hws; [|by apply Hsame].
    destruct (readyState s); try by apply Hsame.
    unfold onopen. rewrite settle_connect_eq. left. simpl.
    repeat split; try done. intros s' [= <-]. rewrite Hws. eauto.
  - destruct (ws st) as [s|] eqn:Hws; [|by apply Hsame].
    destruct (readyState s); try (by apply Hsame);
      left; simpl; (repeat split; try done); intros s' [= <-]; rewrite Hws; eauto.
  - destruct (ws st) as [s|] eqn:Hws; [|by apply Hsame]. unfold onerror.
    apply Hd; rewrite settle_connect_eq; done.
  - destruct (ws st) as [s|] eqn:Hws; [|by apply Hsame]. unfold onmessage.
    destruct (handleMessage_done parsed st) as [st' Hh]. rewrite Hh.
    destruct (handleMessage_frame _ _ _ Hh) as (Hw & _ & Hs & _).
    left. split; [done|]. split; [by apply same_socket_refl|].
    destruct (handleMessage_cases parsed st)
      as [E | (response & k & request & -> & Hid & Hk & Hreq)].
    + rewrite E in Hh. by injection Hh as <-.
    + rewrite (handleMessage_matched _ _ _ _ Hid Hk Hreq) in Hh. injection Hh as <-.
      unfold complete. by rewrite settle_eq.
  - destruct (ws st) as [s|] eqn:Hws; [|by apply Hsame]. unfold onclose.
    set (x := set_ws _ st).
    destruct (disconnect_frame x) as (_ & _ & _ & _ & _ & _ & F7 & F8 & F9 & _).
    left. rewrite F9, F7. split; [done|]. split; [by apply same_socket_none | done].
  - unfold fire. destruct (timers st !! t) as [tm|]; [|by apply Hsame].
    destruct (_ <=? _)%Z; [|by apply Hsame].
    destruct (callback tm) as [k p|p]; simpl.
    + unfold request_timeout. simpl. destruct (pendingRequests st !! k).
      * apply Hr; unfold reject; rewrite settle_eq; done.
      * by apply Hr.
    + unfold connection_timeout. simpl. destruct (ws st) as [s|] eqn:Hws.
      * destruct (readyState s) eqn:Hrs; try (apply Hsame; simpl; done).
        right. right. left. rewrite settle_connect_eq. simpl.
        destruct (disconnect_frame (clearTimeout t st))
          as (_ & _ & _ & _ & _ & _ & F7 & F8 & F9 & _).
        rewrite F9, F8, F7. unfold torn_down. simpl. by rewrite Hws.
      * apply Hsame; simpl; done.
  - destruct (0 <=? ms)%Z; by apply Hsame.
Qed.

(** ** Properties *)

Lemma reachable_run evs st : reachable st -> reachable (run evs st).
Proof.
  revert st. induction evs as [|ev evs IH]; intros st H; simpl; [done|].
  by apply IH, reachable_step.
Qed.

Lemma reachable_init p : reachable (init p).
Proof. by exists p, []. Qed.

Lemma reachable_handshaking : reachable handshaking.
Proof. apply reachable_run, reachable_init. Qed.

Lemma reachable_second_handshake : reachable second_handshake.
Proof. apply reachable_run, reachable_init. Qed.

Lemma reachable_overdue_Y_Z : reachable overdue_Y_Z.
Proof. apply reachable_run, reachable_awaiting_Y. Qed.

Lemma reachable_answered_twice_Y : reachable answered_twice_Y.
Proof. apply reachable_run, reachable_awaiting_Y. Qed.

Lemma sent_app (l1 l2 : list TransportOp) : sent (l1 ++ l2) = (sent l1 ++ sent l2)%list.
Proof. unfold sent. apply omap_app. Qed.

(** Fresh identifiers are free. *)
Lemma next_free st :
  Inv st -> timers st !! next_timer st = None /\ calls st !! next_call st = None.
Proof.
  intros HI. split.
  - destruct (timers st !! next_timer st) eqn:E; [|done].
    apply (inv_timers st HI) in E. lia.
  - destruct (calls st !! next_call st) eqn:E; [|done].
    apply (inv_calls st HI) in E. lia.
Qed.

Lemma requestId_nonempty request uuid : uuid <> "" -> requestId request uuid <> "".
Proof.
  intros Hu. unfold requestId. destruct (id request) as [s|]; [|done].
  destruct (truthy_string s) eqn:Hs; [|done].
  intros ->. discriminate Hs.
Qed.

(** X3. In every run the port of the client is the one resolved by the
    constructor, and every socket is created for that port. *)
Theorem port_is_fixed (p : float) (evs : list Event) :
  port (run evs (init p)) = p /\
  forall sock q c, WsNew sock q c ∈ wire (run evs (init p)) -> q = p.
Proof.
  assert (H : forall evs st,
    (forall sock q c, WsNew sock q c ∈ wire st -> q = port st) ->
    port (run evs st) = port st /\
    forall sock q c, WsNew sock q c ∈ wire (run evs st) -> q = port st).
  { clear evs. induction evs as [|ev evs IH]; intros st Hst; simpl; [done|].
    destruct (step_wire ev st) as (P & ops & W & Hops).
    destruct (IH (step ev st)) as [IP IW].
    - intros sock q c. rewrite W, P. intros [Hin|Hin]%elem_of_app; [|eauto].
      rewrite Forall_forall in Hops. apply (Hops _ Hin).
    - rewrite IP, P. split; [done|]. intros sock q c Hin. rewrite <- P. eauto. }
  apply (H evs (init p)). simpl. intros sock q c Hin. by apply elem_of_nil in Hin.
Qed.

(** X4. While the client is not connected (no socket, or a socket that is
    not OPEN) no step writes a frame; a [sendRequest] that resumes on a
    client that is not connected registers nothing, sets no timer, and
    rejects its call with the CONNECTION error "Not connected to
    Unity". *)
Theorem no_frame_unless_open (ev : Event) (st : McpUnity) :
  isConnected st = false ->
  sent (wire (step ev st)) = sent (wire st) /\
  forall request uuid send_error,
    let st' := sendRequest_resume request uuid send_error st in
    pendingRequests st' = pendingRequests st /\ timers st' = timers st /\
    ws st' = ws st /\ wire st' = wire st /\
    (calls st !! next_call st = None ->
     calls st' !! next_call st =
       Some (Rejected (error CONNECTION "Not connected to Unity"))).
Proof.
  intros Hc. split.
  - destruct (step_wire ev st) as (_ & ops & W & Hops).
    assert (Hnil : sent ops = []).
    { clear W. unfold sent. induction Hops as [|op ops Hop _ IH]; [done|].
      destruct op as [| | |sock f]; simpl; try exact IH.
      simpl in Hop. destruct Hop as (s & Hs & _ & Ho).
      unfold isConnected in Hc. rewrite Hs, Ho in Hc. discriminate. }
    by rewrite W, sent_app, Hnil.
  - intros request uuid send_error. unfold sendRequest_resume.
    rewrite sendRequest_executor_not_connected by done.
    unfold reject. rewrite settle_eq. simpl. repeat split.
    intros ->. by rewrite lookup_insert_eq.
Qed.

Lemma no_frame_unless_open_witness :
  sent (wire (step (ResumeSendRequest request_Y "u-1" None) handshaking)) =
    sent (wire handshaking) /\
  calls (sendRequest_resume request_Y "u-1" None handshaking) !! 0 =
    Some (Rejected (error CONNECTION "Not connected to Unity")).
Proof.
  split.
  - apply (no_frame_unless_open _ handshaking). vm_compute. reflexivity.
  - apply (proj2 (no_frame_unless_open (Tick 0) handshaking ltac:(vm_compute; reflexivity))
             request_Y "u-1" None).
    vm_compute. reflexivity.
Defined.

(** X5. Round trip. On a connected client, a request sent under an id
    that is not pending, followed by the response carrying that id,
    settles the call with the response's result (or error) and leaves the
    table and the timers exactly as they were before the request; one
    frame, with the request's id, method and params, has been written to
    the socket. *)
Theorem request_response_round_trip request uuid response st :
  reachable st -> isConnected st = true -> uuid <> "" ->
  pendingRequests st !! requestId request uuid = None ->
  prop response "id" = Normal (JString (requestId request uuid)) ->
  exists s st',
    ws st = Some s /\
    handleMessage (Normal response) (sendRequest request uuid None st) = Done st' /\
    calls st' !! next_call st =
      Some (if truthy (get response "error")
            then Rejected {| type := TOOL_EXECUTION;
                             message := or_else (get (get response "error") "message")
                                          (JString "Unknown error");
                             details := get (get response "error") "details" |}
            else Resolved (get response "result")) /\
    pendingRequests st' = pendingRequests st /\
    timers st' = timers st /\
    ws st' = ws st /\
    wire st' = WsSend (socket s)
                 {| frame_id := requestId request uuid;
                    frame_method := method request;
                    frame_params := params request |} :: wire st.
Proof.
  intros Hreach Hc Hu Hfresh Hid.
  pose proof (reachable_Inv st Hreach) as HI.
  destruct (next_free st HI) as [Ht Hp].
  destruct (sendRequest_connected request uuid None st Hc) as (E & s & Hws & _).
  exists s. rewrite E, (sendRequest_executor_connected _ _ _ _ s Hws Hc).
  set (k := requestId request uuid) in *.
  set (st1 := transport _ _).
  assert (Hk : pendingRequests st1 !! k =
               Some {| promise := next_call st; timeout := next_timer st |}).
  { unfold st1. simpl. by rewrite lookup_insert_eq. }
  exists (complete k {| promise := next_call st; timeout := next_timer st |}
            (settlement_of response) st1).
  split; [done|]. split.
  { apply (handleMessage_matched response k _ st1 Hid (requestId_nonempty _ _ Hu) Hk). }
  destruct (complete_spec k {| promise := next_call st; timeout := next_timer st |}
              (settlement_of response) st1) as (T & P & C & W & Wi); [exact Hp|].
  cbn [promise timeout] in T, C. rewrite T, P, C, W, Wi. unfold st1. simpl.
  rewrite !delete_insert_eq, (delete_id _ _ Ht), (delete_id _ _ Hfresh).
  repeat split; done.
Qed.

Lemma request_response_round_trip_witness :
  exists st',
    handleMessage (Normal (result_frame "Z" (JString "pong")))
      (sendRequest request_Z "u-2" None awaiting_Y) = Done st' /\
    calls st' !! 1 = Some (Resolved (JString "pong")) /\
    pendingRequests st' = pendingRequests awaiting_Y /\
    timers st' = timers awaiting_Y.
Proof.
  pose proof (request_response_round_trip request_Z "u-2"
                (result_frame "Z" (JString "pong")) awaiting_Y
                reachable_awaiting_Y) as H.
  destruct H as (s & st' & _ & H1 & H2 & H3 & H4 & _).
  - vm_compute. reflexivity.
  - discriminate.
  - vm_compute. reflexivity.
  - reflexivity.
  - exists st'. exact (conj H1 (conj H2 (conj H3 H4))).
Defined.

(** X6. [start] on a connected client opens no socket and tears none
    down: socket, table, timers and transport log are unchanged, and the
    promise of [connect] is resolved at once. *)
Theorem start_when_connected c st :
  reachable st -> isConnected st = true ->
  ws (start c st) = ws st /\
  pendingRequests (start c st) = pendingRequests st /\
  timers (start c st) = timers st /\
  calls (start c st) = calls st /\
  wire (start c st) = wire st /\
  connects (start c st) !! next_connect st = Some (Resolved JUndefined).
Proof.
  intros Hreach Hc. pose proof (reachable_Inv2 st Hreach) as HJ.
  unfold start. rewrite (proj2 (connect_connected c st Hc)), settle_connect_eq. simpl.
  repeat split.
  destruct (connects st !! next_connect st) eqn:E.
  - apply (inv2_connects st HJ) in E. lia.
  - by rewrite lookup_insert_eq.
Qed.

Lemma start_when_connected_witness :
  ws (start (Some "cursor") awaiting_Y) = ws awaiting_Y /\
  pendingRequests (start (Some "cursor") awaiting_Y) = pendingRequests awaiting_Y /\
  wire (start (Some "cursor") awaiting_Y) = wire awaiting_Y.
Proof.
  destruct (start_when_connected (Some "cursor") awaiting_Y reachable_awaiting_Y)
    as (H1 & H2 & _ & _ & H5 & _); [vm_compute; reflexivity|].
  exact (conj H1 (conj H2 H5)).
Defined.

(** With an empty table [disconnect] clears no timer and settles nothing. *)
Lemma disconnect_empty st s :
  ws st = Some s -> pendingRequests st = ∅ ->
  timers (disconnect st) = timers st /\ calls (disconnect st) = calls st.
Proof.
  intros Hws He.
  destruct (disconnect_open st s Hws)
    as (_ & _ & _ & _ & _ & _ & _ & _ & _ & _ & D11 & D12).
  rewrite He, map_to_list_empty in D11, D12. split; apply map_eq; intros i.
  - rewrite D11. destruct (decide _) as [Hin|]; [|done]. by apply elem_of_nil in Hin.
  - rewrite D12. destruct (calls st !! i); [done|].
    destruct (decide _) as [Hin|]; [|done]. by apply elem_of_nil in Hin.
Qed.

(** X7. When a connection timer fires and the socket held is still
    CONNECTING, that socket is terminated and dropped and the promise of
    the [connect] call that set the timer is rejected with "Connection
    timeout". This is so whether or not the timer is the one of the
    socket held: the timer of an abandoned attempt is not cleared by
    [disconnect], and when it fires it ends a later handshake, whose own
    promise stays unsettled. When the socket held is not CONNECTING the
    callback does nothing. *)
Theorem connection_timeout_fires st t tm p s :
  reachable st ->
  timers st !! t = Some tm -> callback tm = ConnectionTimeout p ->
  (set_at tm + 10000 <= clock st)%Z ->
  ws st = Some s ->
  let st' := step (TimerFires t) st in
  (readyState s = CONNECTING ->
     ws st' = None /\
     wire st' = WsTerminate (socket s) :: wire st /\
     timers st' = delete t (timers st) /\
     connects st' !! p = Some (Rejected (error CONNECTION "Connection timeout")) /\
     (t <> connectionTimeout s -> connects st' !! connectPromise s = None)) /\
  (readyState s <> CONNECTING -> st' = clearTimeout t st).
Proof.
  intros Hreach Ht Hcb Hdue Hws.
  pose proof (reachable_Inv st Hreach) as HI.
  pose proof (reachable_Inv2 st Hreach) as HJ.
  destruct (inv_timers st HI t tm Ht) as [_ Hdelay].
  destruct (inv2_connection_timers st HJ t tm p Ht Hcb) as (_ & Hun & Hsock).
  simpl. unfold fire. rewrite Ht, Hdelay, Hcb.
  replace (set_at tm + REQUEST_TIMEOUT <=? clock st)%Z with true
    by (symmetry; apply Z.leb_le; exact Hdue).
  simpl. unfold connection_timeout. simpl. rewrite Hws. split.
  - intros Hr. rewrite Hr.
    destruct (inv2_handshake st HJ s Hws Hr) as [Hempty HunS].
    set (x := clearTimeout t st).
    destruct (disconnect_open x s Hws)
      as (_ & D2 & _ & _ & _ & D6 & _ & _ & D9 & _ & _ & _).
    destruct (disconnect_empty x s Hws Hempty) as [DT _].
    rewrite settle_connect_eq. simpl. rewrite D2, D9, DT, D6. simpl. rewrite Hun.
    unfold teardown. rewrite Hr. rewrite lookup_insert_eq.
    repeat split. intros Hne. rewrite lookup_insert_ne; [done|].
    intros E. apply Hne. by apply Hsock.
  - intros Hr. by destruct (readyState s).
Qed.

Lemma connection_timeout_fires_witness :
  ws second_handshake =
    Some {| socket := 1; readyState := CONNECTING;
            connectionTimeout := 1; connectPromise := 1 |} /\
  timers second_handshake !! 1 =
    Some {| set_at := 6000; delay := 10000; callback := ConnectionTimeout 1 |} /\
  ws (step (TimerFires 0) second_handshake) = None /\
  wire (step (TimerFires 0) second_handshake) = WsTerminate 1 :: wire second_handshake /\
  connects (step (TimerFires 0) second_handshake) !! 1 = None.
Proof.
  split; [vm_compute; reflexivity|]. split; [vm_compute; reflexivity|].
  pose proof (connection_timeout_fires second_handshake 0
                {| set_at := 0; delay := 10000; callback := ConnectionTimeout 0 |} 0
                {| socket := 1; readyState := CONNECTING;
                   connectionTimeout := 1; connectPromise := 1 |}
                reachable_second_handshake) as H.
  destruct H as [H _].
  - vm_compute. reflexivity.
  - reflexivity.
  - vm_compute. discriminate.
  - vm_compute. reflexivity.
  - destruct (H eq_refl) as (H1 & H2 & _ & _ & H5).
    exact (conj H1 (conj H2 (H5 ltac:(discriminate)))).
Defined.

(** X8. When the socket opens, the client is connected, the connection
    timer is cleared (so that its firing later changes nothing), the
    promise of [connect] is resolved, and nothing is written. *)
Theorem socket_opens st s :
  reachable st -> ws st = Some s -> readyState s = CONNECTING ->
  let st' := step SocketOpens st in
  isConnected st' = true /\
  ws st' = Some (set_readyState OPEN s) /\
  timers st' = delete (connectionTimeout s) (timers st) /\
  connects st' !! connectPromise s = Some (Resolved JUndefined) /\
  pendingRequests st' = ∅ /\
  wire st' = wire st /\
  step (TimerFires (connectionTimeout s)) st' = st'.
Proof.
  intros Hreach Hws Hr. pose proof (reachable_Inv2 st Hreach) as HJ.
  destruct (inv2_handshake st HJ s Hws Hr) as [Hempty Hun].
  simpl. rewrite Hws, Hr. unfold onopen. rewrite settle_connect_eq. simpl.
  rewrite Hun, lookup_insert_eq. repeat split; try done.
  unfold fire. simpl. by rewrite lookup_delete_eq.
Qed.

Lemma socket_opens_witness :
  isConnected (step SocketOpens handshaking) = true /\
  connects (step SocketOpens handshaking) !! 0 = Some (Resolved JUndefined) /\
  step (TimerFires 0) (step SocketOpens handshaking) = step SocketOpens handshaking.
Proof.
  destruct (socket_opens handshaking
              {| socket := 0; readyState := CONNECTING;
                 connectionTimeout := 0; connectPromise := 0 |}
              reachable_handshaking) as (H1 & _ & _ & H4 & _ & _ & H7);
    [vm_compute; reflexivity | reflexivity |].
  exact (conj H1 (conj H4 H7)).
Defined.

(** X9. When the socket held closes or reports an error, the client drops
    it, empties the table, clears the timer of every pending request and
    rejects each with "Connection closed". On close no transport call is
    made; on error the socket is terminated or closed according to its
    state, and during a handshake the promise of [connect] is rejected
    with "Connection failed: " and the error's message ("Unknown error"
    when it is empty). *)
Theorem socket_loss_rejects_pending st s :
  reachable st -> ws st = Some s ->
  (let st' := step SocketCloses st in
   ws st' = None /\ pendingRequests st' = ∅ /\ wire st' = wire st /\
   forall k r, pendingRequests st !! k = Some r ->
     timers st' !! timeout r = None /\
     calls st' !! promise r = Some (Rejected connection_closed)) /\
  (forall m,
   let st' := step (SocketError m) st in
   ws st' = None /\ pendingRequests st' = ∅ /\
   wire st' = (teardown s ++ wire st)%list /\
   (forall k r, pendingRequests st !! k = Some r ->
      timers st' !! timeout r = None /\
      calls st' !! promise r = Some (Rejected connection_closed)) /\
   (readyState s = CONNECTING ->
      connects st' !! connectPromise s =
        Some (Rejected (error CONNECTION
                ("Connection failed: " ++
                 if truthy_string m then m else "Unknown error"))))).
Proof.
  intros Hreach Hws. pose proof (reachable_Inv st Hreach) as HI.
  pose proof (reachable_Inv2 st Hreach) as HJ.
  assert (Hgen : forall x s', ws x = Some s' ->
    pendingRequests x = pendingRequests st -> calls x = calls st ->
    forall k r, pendingRequests st !! k = Some r ->
      timers (disconnect x) !! timeout r = None /\
      calls (disconnect x) !! promise r = Some (Rejected connection_closed)).
  { intros x s' Hx Hp Hcalls k r Hk.
    destruct (disconnect_open x s' Hx)
      as (_ & _ & _ & _ & _ & _ & _ & _ & _ & _ & D11 & D12).
    rewrite D11, D12, Hp, Hcalls, (inv_unsettled st HI k r Hk).
    rewrite !decide_True; [done | apply in_promises; eauto | apply in_timeouts; eauto]. }
  split.
  - simpl. rewrite Hws. unfold onclose.
    set (x := set_ws _ st).
    destruct (disconnect_open x (set_readyState CLOSED s) eq_refl)
      as (_ & D2 & _ & _ & _ & _ & _ & _ & D9 & D10 & _ & _).
    split; [done|]. split; [done|]. split; [exact D9|].
    by apply (Hgen x (set_readyState CLOSED s)).
  - intros m. simpl. rewrite Hws. unfold onerror.
    set (reason := if truthy_string m then m else "Unknown error").
    rewrite settle_connect_eq.
    set (x := set_connects _ _ _).
    destruct (disconnect_open x s Hws)
      as (_ & D2 & _ & _ & _ & D6 & _ & _ & D9 & D10 & _ & _).
    split; [done|]. split; [done|]. split; [exact D9|]. split.
    + by apply (Hgen x s).
    + intros Hr. destruct (inv2_handshake st HJ s Hws Hr) as [_ Hun].
      rewrite D6. unfold x. simpl. by rewrite Hun, lookup_insert_eq.
Qed.

Lemma socket_loss_rejects_pending_witness :
  pendingRequests (step SocketCloses awaiting_Y) = ∅ /\
  calls (step SocketCloses awaiting_Y) !! 0 = Some (Rejected connection_closed) /\
  wire (step SocketCloses awaiting_Y) = wire awaiting_Y.
Proof.
  destruct (socket_loss_rejects_pending awaiting_Y
              {| socket := 0; readyState := OPEN;
                 connectionTimeout := 0; connectPromise := 0 |}
              reachable_awaiting_Y) as [(_ & H2 & H3 & H4) _];
    [vm_compute; reflexivity|].
  destruct (H4 "Y" {| promise := 0; timeout := 1 |}) as [_ H5];
    [vm_compute; reflexivity|].
  exact (conj H2 (conj H5 H3)).
Defined.

(** X10. In every reachable state, each entry of the table belongs to a
    call that is not settled yet, exists only while a socket that has
    left the CONNECTING state is held, and has a live timer of 10 000 ms
    whose callback names the entry's id and call. *)
Theorem pending_entry_has_deadline st k r :
  reachable st -> pendingRequests st !! k = Some r ->
  calls st !! promise r = None /\
  (exists s, ws st = Some s /\ readyState s <> CONNECTING) /\
  exists tm, timers st !! timeout r = Some tm /\
             callback tm = RequestTimeout k (promise r) /\
             delay tm = 10000%Z /\ (set_at tm <= clock st)%Z.
Proof.
  intros Hreach Hk. pose proof (reachable_Inv st Hreach) as HI.
  pose proof (reachable_Inv2 st Hreach) as HJ.
  split; [by apply (inv_unsettled st HI k r)|]. split.
  - destruct (ws st) as [s|] eqn:Hws.
    + exists s. split; [done|]. intros Hr.
      destruct (inv2_handshake st HJ s Hws Hr) as [He _].
      by rewrite He, lookup_empty in Hk.
    + by rewrite (inv_ws st HI Hws), lookup_empty in Hk.
  - destruct (inv2_entry_timer st HJ k r Hk) as (tm & Ht & Hcb).
    exists tm. destruct (inv_timers st HI _ tm Ht) as [_ Hd].
    repeat split; try done. by apply (inv2_set_at st HJ (timeout r) tm).
Qed.

Lemma pending_entry_has_deadline_witness :
  calls overdue_Y !! 0 = None /\
  exists tm, timers overdue_Y !! 1 = Some tm /\
             callback tm = RequestTimeout "Y" 0 /\ delay tm = 10000%Z.
Proof.
  destruct (pending_entry_has_deadline overdue_Y "Y" {| promise := 0; timeout := 1 |}
              reachable_overdue_Y) as (H1 & _ & tm & H2 & H3 & H4 & _);
    [vm_compute; reflexivity|].
  split; [exact H1|]. exists tm. exact (conj H2 (conj H3 H4)).
Defined.

(** The state in which the callback of a request timer calls [reconnect]. *)
Lemma fire_request_timer st t tm k p :
  Inv st -> timers st !! t = Some tm -> callback tm = RequestTimeout k p ->
  (set_at tm + 10000 <= clock st)%Z ->
  exists x,
    step (TimerFires t) st = reconnect x /\
    ws x = ws st /\ wire x = wire st /\ port x = port st /\
    next_socket x = next_socket st /\ next_timer x = next_timer st /\
    next_connect x = next_connect st /\ connects x = connects st /\
    timers x = delete t (timers st) /\
    pendingRequests x = delete k (pendingRequests st) /\
    (forall q, q <> p -> calls x !! q = calls st !! q) /\
    (pendingRequests st !! k = None -> calls x = calls st).
Proof.
  intros HI Ht Hcb Hdue. destruct (inv_timers st HI t tm Ht) as [_ Hdelay].
  simpl. unfold fire. rewrite Ht, Hdelay, Hcb.
  replace (set_at tm + REQUEST_TIMEOUT <=? clock st)%Z with true
    by (symmetry; apply Z.leb_le; exact Hdue).
  simpl. unfold request_timeout. simpl.
  destruct (pendingRequests st !! k) eqn:Hk.
  - eexists. split; [reflexivity|]. unfold reject. rewrite settle_eq. simpl.
    repeat split; try done.
    intros q Hq. destruct (calls st !! p); [done|]. by rewrite lookup_insert_ne.
  - eexists. split; [reflexivity|]. simpl. rewrite (delete_id _ _ Hk).
    repeat split; done.
Qed.

(** [reconnect] on a client that holds a socket. *)
Lemma reconnect_open x s :
  ws x = Some s ->
  let st' := reconnect x in
  ws st' = Some {| socket := next_socket x; readyState := CONNECTING;
                   connectionTimeout := next_timer x;
                   connectPromise := next_connect x |} /\
  isConnected st' = false /\
  pendingRequests st' = ∅ /\
  wire st' = (WsNew (next_socket x) (port x) "" :: teardown s ++ wire x)%list /\
  (forall t, t <> next_timer x ->
     timers st' !! t =
       if decide (t ∈ (timeout ∘ snd) <$> map_to_list (pendingRequests x))
       then None else timers x !! t) /\
  (forall q, calls st' !! q =
     match calls x !! q with
     | Some y => Some y
     | None => if decide (q ∈ (promise ∘ snd) <$> map_to_list (pendingRequests x))
               then Some (Rejected connection_closed) else None
     end).
Proof.
  intros Hws. unfold reconnect.
  destruct (disconnect_open x s Hws)
    as (D1 & D2 & _ & D4 & _ & _ & D7 & D8 & D9 & D10 & D11 & D12).
  destruct (connect_from_closed None (disconnect x) D2) as (K1 & K2 & K3 & K4).
  destruct (connect_fresh None (disconnect x) (isConnected_disconnect x))
    as (_ & _ & _ & _ & T & _).
  rewrite (disconnect_closed (disconnect x) D2) in T.
  simpl in K4. split; [by rewrite K1, D4, D7, D8|].
  split; [unfold isConnected; by rewrite K1|].
  split; [by rewrite K2|].
  split; [by rewrite K4, D1, D8, D9|].
  split.
  - intros t Hne. rewrite T, D4, lookup_insert_ne by done. apply D11.
  - intros q. rewrite K3. apply D12.
Qed.

(** X11. When the timer of one request fires, every request pending
    under another id has its timer cleared and is rejected with
    "Connection closed" (not with a timeout), and the table is left
    empty. *)
Theorem timeout_rejects_other_requests st t tm k p k' r' :
  reachable st ->
  timers st !! t = Some tm -> callback tm = RequestTimeout k p ->
  (set_at tm + 10000 <= clock st)%Z ->
  k' <> k -> pendingRequests st !! k' = Some r' ->
  let st' := step (TimerFires t) st in
  pendingRequests st' = ∅ /\
  timers st' !! timeout r' = None /\
  calls st' !! promise r' = Some (Rejected connection_closed).
Proof.
  intros Hreach Ht Hcb Hdue Hne Hk'.
  pose proof (reachable_Inv st Hreach) as HI.
  pose proof (reachable_Inv2 st Hreach) as HJ.
  destruct (fire_request_timer st t tm k p HI Ht Hcb Hdue)
    as (x & -> & X1 & _ & _ & _ & X5 & _ & _ & X8 & X9 & X10 & _).
  destruct (ws st) as [s|] eqn:Hws.
  2: { by rewrite (inv_ws st HI Hws), lookup_empty in Hk'. }
  destruct (reconnect_open x s X1) as (_ & _ & R3 & _ & R5 & R6).
  assert (Hx : pendingRequests x !! k' = Some r').
  { by rewrite X9, lookup_delete_ne. }
  destruct (inv2_entry_timer st HJ k' r' Hk') as (tm' & Ht' & _).
  destruct (inv_timers st HI _ tm' Ht') as [Hlt _].
  destruct (inv_request_timers st HI t tm k p Ht Hcb) as [_ Hkey].
  split; [exact R3|]. split.
  - rewrite R5 by lia. rewrite decide_True; [done|]. apply in_timeouts. eauto.
  - rewrite R6, X10, (inv_unsettled st HI k' r' Hk').
    + rewrite decide_True; [done|]. apply in_promises. eauto.
    + intros E. apply Hne. by apply (Hkey k' r').
Qed.

Lemma timeout_rejects_other_requests_witness :
  pendingRequests overdue_Y_Z !! "Z" = Some {| promise := 1; timeout := 2 |} /\
  calls (step (TimerFires 1) overdue_Y_Z) !! 1 = Some (Rejected connection_closed) /\
  timers (step (TimerFires 1) overdue_Y_Z) !! 2 = None.
Proof.
  split; [vm_compute; reflexivity|].
  pose proof (timeout_rejects_other_requests overdue_Y_Z 1
                {| set_at := 0; delay := 10000; callback := RequestTimeout "Y" 0 |}
                "Y" 0 "Z" {| promise := 1; timeout := 2 |}
                reachable_overdue_Y_Z) as H.
  destruct H as (_ & H2 & H3).
  - vm_compute. reflexivity.
  - reflexivity.
  - vm_compute. discriminate.
  - discriminate.
  - vm_compute. reflexivity.
  - exact (conj H3 H2).
Defined.

(** X12. The callback of a request timer reconnects even when no entry is
    pending under its id: the call is not rejected, but the socket held
    is torn down, a new one is created, and every pending request is
    rejected with "Connection closed". *)
Theorem stale_timer_reconnects st t tm k p s :
  reachable st ->
  timers st !! t = Some tm -> callback tm = RequestTimeout k p ->
  (set_at tm + 10000 <= clock st)%Z ->
  pendingRequests st !! k = None -> ws st = Some s ->
  let st' := step (TimerFires t) st in
  calls st' !! p = calls st !! p /\
  ws st' = Some {| socket := next_socket st; readyState := CONNECTING;
                   connectionTimeout := next_timer st;
                   connectPromise := next_connect st |} /\
  isConnected st' = false /\
  wire st' = (WsNew (next_socket st) (port st) "" :: teardown s ++ wire st)%list /\
  forall k' r', pendingRequests st !! k' = Some r' ->
    calls st' !! promise r' = Some (Rejected connection_closed).
Proof.
  intros Hreach Ht Hcb Hdue Hk Hws.
  pose proof (reachable_Inv st Hreach) as HI.
  destruct (fire_request_timer st t tm k p HI Ht Hcb Hdue)
    as (x & -> & X1 & X2 & X3 & X4 & X5 & X6 & _ & _ & X9 & _ & X11).
  rewrite Hws in X1. rewrite (delete_id _ _ Hk) in X9.
  destruct (reconnect_open x s X1) as (R1 & R2 & _ & R4 & _ & R6).
  destruct (inv_request_timers st HI t tm k p Ht Hcb) as [_ Hkey].
  cbv zeta. rewrite R1, R4, X2, X3, X4, X5, X6. repeat split; try done.
  - rewrite R6, X9, (X11 Hk). destruct (calls st !! p); [done|].
    rewrite decide_False; [done|]. intros (k' & r' & Hk' & E)%in_promises.
    rewrite (Hkey k' r' Hk' E) in Hk'. congruence.
  - intros k' r' Hk'. rewrite R6, X9, (X11 Hk), (inv_unsettled st HI k' r' Hk').
    rewrite decide_True; [done|]. apply in_promises. eauto.
Qed.

Lemma stale_timer_reconnects_witness :
  isConnected answered_twice_Y = true /\
  calls answered_twice_Y !! 0 = None /\
  calls (step (TimerFires 1) answered_twice_Y) !! 0 = None /\
  isConnected (step (TimerFires 1) answered_twice_Y) = false.
Proof.
  split; [vm_compute; reflexivity|]. split; [vm_compute; reflexivity|].
  pose proof (stale_timer_reconnects answered_twice_Y 1
                {| set_at := 0; delay := 10000; callback := RequestTimeout "Y" 0 |}
                "Y" 0
                {| socket := 0; readyState := OPEN;
                   connectionTimeout := 0; connectPromise := 0 |}
                reachable_answered_twice_Y) as H.
  destruct H as (H1 & _ & H3 & _).
  - vm_compute. reflexivity.
  - reflexivity.
  - vm_compute. discriminate.
  - vm_compute. reflexivity.
  - vm_compute. reflexivity.
  - split; [|exact H3]. rewrite H1. vm_compute. reflexivity.
Defined.

(** X13. A request sent under an id that is already pending takes over
    the entry: the older call is in no entry any more and only its timer
    remains; the response carrying the id settles the newer call and
    leaves the older one unsettled. *)
Theorem duplicate_id_replaces_entry request uuid st k r1 :
  reachable st -> isConnected st = true ->
  id request = Some k -> k <> "" ->
  pendingRequests st !! k = Some r1 ->
  let st1 := sendRequest request uuid None st in
  pendingRequests st1 !! k =
    Some {| promise := next_call st; timeout := next_timer st |} /\
  (forall k' r', pendingRequests st1 !! k' = Some r' -> promise r' <> promise r1) /\
  (exists tm, timers st1 !! timeout r1 = Some tm /\
              callback tm = RequestTimeout k (promise r1)) /\
  forall response,
    prop response "id" = Normal (JString k) ->
    exists st2,
      handleMessage (Normal response) st1 = Done st2 /\
      is_Some (calls st2 !! next_call st) /\
      calls st2 !! promise r1 = None /\
      pendingRequests st2 !! k = None.
Proof.
  intros Hreach Hc Hid Hk Hr1.
  pose proof (reachable_Inv st Hreach) as HI.
  pose proof (reachable_Inv2 st Hreach) as HJ.
  destruct (next_free st HI) as [Ht Hp].
  pose proof (inv_entries st HI k r1 Hr1) as Hlt.
  pose proof (inv_unsettled st HI k r1 Hr1) as Hun.
  destruct (inv2_entry_timer st HJ k r1 Hr1) as (tm & Htm & Hcb).
  destruct (inv_timers st HI _ tm Htm) as [Hlt' _].
  assert (Ek : requestId request uuid = k).
  { unfold requestId. rewrite Hid. by rewrite PortFacts.truthy_string_true. }
  destruct (sendRequest_connected request uuid None st Hc) as (E & s & Hws & _).
  cbv zeta. rewrite E, (sendRequest_executor_connected _ _ _ _ s Hws Hc), Ek.
  set (st1 := transport _ _).
  assert (H1 : pendingRequests st1 !! k =
               Some {| promise := next_call st; timeout := next_timer st |}).
  { unfold st1. simpl. by rewrite lookup_insert_eq. }
  split; [exact H1|]. split; [|split].
  - intros k' r'. unfold st1. simpl. rewrite lookup_insert.
    destruct (decide (k = k')) as [<-|Hne].
    + intros [= <-]. simpl. lia.
    + intros Hk' Heq. apply Hne. by apply (inv_inj st HI k k' r1 r').
  - exists tm. unfold st1. simpl. rewrite lookup_insert_ne by lia. done.
  - intros response Hresp.
    exists (complete k {| promise := next_call st; timeout := next_timer st |}
              (settlement_of response) st1).
    split; [by apply handleMessage_matched|].
    unfold complete. rewrite settle_eq. unfold st1. simpl. rewrite Hp.
    split; [by rewrite lookup_insert_eq|].
    split; [by rewrite lookup_insert_ne by lia|].
    by rewrite lookup_delete_eq.
Qed.

Lemma duplicate_id_replaces_entry_witness :
  pendingRequests (sendRequest request_Y "u-2" None awaiting_Y) !! "Y" =
    Some {| promise := 1; timeout := 2 |} /\
  exists st2,
    handleMessage (Normal (result_frame "Y" (JString "pong")))
      (sendRequest request_Y "u-2" None awaiting_Y) = Done st2 /\
    calls st2 !! 0 = None /\ pendingRequests st2 !! "Y" = None.
Proof.
  pose proof (duplicate_id_replaces_entry request_Y "u-2" awaiting_Y "Y"
                {| promise := 0; timeout := 1 |} reachable_awaiting_Y) as H.
  destruct H as (H1 & _ & _ & H4).
  - vm_compute. reflexivity.
  - reflexivity.
  - discriminate.
  - vm_compute. reflexivity.
  - split; [exact H1|].
    destruct (H4 (result_frame "Y" (JString "pong")) eq_refl) as (st2 & A & _ & B & C).
    exists st2. exact (conj A (conj B C)).
Defined.

(** X14. [sendRequest] during a handshake runs [connect], as [start]
    without a client name does: it terminates the socket that is
    connecting and creates a new one. No
    request is registered, the timer of the abandoned attempt is not
    cleared and its promise stays unsettled. *)
Theorem request_during_handshake request uuid send_error st s :
  reachable st -> ws st = Some s -> readyState s = CONNECTING ->
  let st' := sendRequest request uuid send_error st in
  st' = start None st /\
  ws st' = Some {| socket := next_socket st; readyState := CONNECTING;
                   connectionTimeout := next_timer st;
                   connectPromise := next_connect st |} /\
  wire st' = WsNew (next_socket st) (port st) "" :: WsTerminate (socket s) :: wire st /\
  timers st' !! connectionTimeout s = timers st !! connectionTimeout s /\
  connects st' !! connectPromise s = None /\
  calls st' = calls st /\ next_call st' = next_call st /\
  pendingRequests st' = ∅.
Proof.
  intros Hreach Hws Hr. pose proof (reachable_Inv2 st Hreach) as HJ.
  destruct (inv2_handshake st HJ s Hws Hr) as [Hempty Hun].
  destruct (inv2_socket st HJ s Hws) as (_ & Hlt & _ & _).
  assert (Hc : isConnected st = false).
  { unfold isConnected. by rewrite Hws, Hr. }
  cbv zeta. unfold sendRequest, start. rewrite Hc. split; [done|].
  destruct (connect_fresh None st Hc)
    as (W & P & C & NC & T & _ & Co & _ & _ & Wi & _ & _).
  destruct (disconnect_open st s Hws)
    as (_ & _ & _ & _ & _ & _ & _ & _ & D9 & D10 & _ & _).
  destruct (disconnect_empty st s Hws Hempty) as [DT DC].
  rewrite W, Wi, D9, T, DT, Co, C, DC, NC, P, D10.
  unfold teardown. rewrite Hr. rewrite lookup_insert_ne by lia.
  repeat split; done.
Qed.

Lemma request_during_handshake_witness :
  wire (sendRequest request_Y "u-1" None handshaking) =
    [WsNew 1 8090%float ""; WsTerminate 0; WsNew 0 8090%float ""] /\
  timers (sendRequest request_Y "u-1" None handshaking) !! 0 = timers handshaking !! 0 /\
  pendingRequests (sendRequest request_Y "u-1" None handshaking) = ∅.
Proof.
  destruct (request_during_handshake request_Y "u-1" None handshaking
              {| socket := 0; readyState := CONNECTING;
                 connectionTimeout := 0; connectPromise := 0 |}
              reachable_handshaking) as (_ & _ & H3 & H4 & _ & _ & _ & H8);
    [vm_compute; reflexivity | reflexivity |].
  exact (conj H3 (conj H4 H8)).
Defined.

(** A call on a socket that has not been torn down may follow. *)
Lemma no_use_after_teardown_cons op ops :
  no_use_after_teardown ops ->
  (forall td, td ∈ ops -> is_teardown td = true -> sock_of td <> sock_of op) ->
  no_use_after_teardown (op :: ops).
Proof.
  intros Hclean Hop later x earlier Heq Hx op' Hin.
  destruct later as [|y later]; [by apply elem_of_nil in Hin|].
  injection Heq as <- Heq.
  apply elem_of_cons in Hin as [-> | Hin].
  - intros E. apply (Hop x); [|done | by symmetry].
    rewrite Heq. apply elem_of_app. right. by left.
  - by apply (Hclean later x earlier).
Qed.

Lemma torn_down_cases st :
  torn_down st = [] \/
  exists s td, ws st = Some s /\ torn_down st = [td] /\
               is_teardown td = true /\ sock_of td = socket s.
Proof.
  unfold torn_down, teardown. destruct (ws st) as [s|]; [|by left].
  destruct (readyState s); try (by left); right; eexists s, _; repeat split.
Qed.

Lemma TransportInv_init p : TransportInv (init p).
Proof.
  split; simpl.
  - intros op Hin. by apply elem_of_nil in Hin.
  - discriminate.
  - intros later op earlier Heq. by destruct later.
Qed.

Lemma TransportInv_torn_down st :
  Inv2 st -> TransportInv st ->
  (forall op, op ∈ (torn_down st ++ wire st)%list -> sock_of op < next_socket st) /\
  no_use_after_teardown (torn_down st ++ wire st).
Proof.
  intros HJ [K1 K2 K3].
  destruct (torn_down_cases st) as [-> | (s & td & Hws & -> & Htd & Hsock)]; [done|].
  destruct (inv2_socket st HJ s Hws) as (Hlt & _). simpl. split.
  - intros op [-> | Hin]%elem_of_cons; [lia | by apply K1].
  - apply no_use_after_teardown_cons; [done|].
    intros x Hin Hx. rewrite Hsock. by apply (K2 s).
Qed.

Lemma TransportInv_step st st' :
  Inv2 st -> TransportInv st -> step_shape st st' -> TransportInv st'.
Proof.
  intros HJ HK Hshape. pose proof HK as [K1 K2 K3].
  destruct (TransportInv_torn_down st HJ HK) as [T1 T3].
  destruct Hshape as [(W & S & N) | [(s & f & Hws & Ho & W & S & N) |
                      [(W & Hn & N) | (c & s' & W & Hs' & Hsock & N)]]].
  - split; rewrite ?W, ?N; try done.
    intros s1 op Hs1 Hin Hop. destruct (S s1 Hs1) as (s0 & H0 & ->). by apply (K2 s0).
  - destruct (inv2_socket st HJ s Hws) as (Hlt & _).
    split; rewrite ?W, ?N.
    + intros op [-> | Hin]%elem_of_cons; [done | by apply K1].
    + intros s1 op Hs1 [-> | Hin]%elem_of_cons Hop; [done|].
      destruct (S s1 Hs1) as (s0 & H0 & ->). by apply (K2 s0).
    + apply no_use_after_teardown_cons; [done|].
      intros td Hin Htd. by apply (K2 s).
  - split; rewrite ?W, ?N; try done. rewrite Hn. discriminate.
  - split; rewrite ?W, ?N.
    + intros op [-> | Hin]%elem_of_cons; [simpl; lia|].
      apply T1 in Hin. lia.
    + rewrite Hs'. intros s1 op [= <-] [-> | Hin]%elem_of_cons Hop; [done|].
      apply T1 in Hin. lia.
    + apply no_use_after_teardown_cons; [done|].
      intros td Hin _. apply T1 in Hin. simpl. lia.
Qed.

Lemma reachable_TransportInv st : reachable st -> TransportInv st.
Proof.
  intros (p & evs & ->).
  assert (H : forall evs st, Inv st -> Inv2 st -> TransportInv st ->
                             TransportInv (run evs st)).
  { clear. induction evs as [|ev evs IH]; intros st HI HJ HK; simpl; [done|].
    apply IH; [by apply Inv_step | by apply Inv2_step|].
    apply (TransportInv_step st); [done | done | apply step_sockets]. }
  apply H; [apply Inv_init | apply Inv2_init | apply TransportInv_init].
Qed.

(** X15. In every reachable state, once a socket has been terminated or
    closed by the client no later transport call is made on it, and the
    socket held is one the client has not torn down. *)
Theorem socket_not_used_after_teardown st :
  reachable st ->
  no_use_after_teardown (wire st) /\
  forall s op, ws st = Some s -> op ∈ wire st -> is_teardown op = true ->
               sock_of op <> socket s.
Proof.
  intros Hreach. destruct (reachable_TransportInv st Hreach) as [_ K2 K3].
  split; [exact K3 | exact K2].
Qed.

Lemma reachable_restarted : reachable restarted.
Proof. apply reachable_run, reachable_awaiting_Y. Qed.

Lemma socket_not_used_after_teardown_witness :
  wire restarted =
    [WsSend 1 {| frame_id := "Z"; frame_method := "ping"; frame_params := JNull |};
     WsNew 1 8090%float ""; WsClose 0;
     WsSend 0 {| frame_id := "Y"; frame_method := "fail"; frame_params := JObject [] |};
     WsNew 0 8090%float ""] /\
  no_use_after_teardown (wire restarted).
Proof.
  split; [vm_compute; reflexivity|].
  apply (socket_not_used_after_teardown restarted reachable_restarted).
Defined.

End ClientMore.
